(** * sc-bodeplot: the sweep-and-analysis engine of [sc-bodeplot.py]

    A shallow embedding of the measuring loop of the script (lines 77-79 and
    119-236) and the properties of it that the specification states.

    Numbers.  Python [float] values are modelled as real numbers ([R]); the
    rounding of IEEE-754 arithmetic is not modelled there.  [int] values that
    the script compares or multiplies with floats are injected with
    [IZR]/[INR].  Where the sign of a result depends on rounding, the RMS
    computation is also given in binary64 arithmetic ([rms_minus_dc64]).

    Errors.  A Python exception is a value [inl e] of the error monad
    [result]; an uncaught exception ends the process.

    Instruments.  The soundcard generator and the oscilloscope are external;
    they are an interface ([Instrument]) over an abstract device state. *)

From Corelib Require Import PrimInt63 PrimFloat.
From Stdlib Require Import String Reals Lra Lia ZArith List Sorted Psatz.
Import ListNotations.
Open Scope R_scope.

(** ** Python exceptions and the error monad *)

Inductive exn : Type :=
| ZeroDivisionError            (* [a / b] with [b == 0] *)
| ValueError                   (* [math.sqrt] of a negative, [np.argmax] of an empty array *)
| IndexError                   (* indexing outside an array *)
| ScopeError (code : Z).       (* whatever the oscilloscope library raises *)

Definition result (A : Type) : Type := (exn + A)%type.

Definition ret {A} (a : A) : result A := inr a.
Definition raise {A} (e : exn) : result A := inl e.
Definition bind {A B} (m : result A) (k : A -> result B) : result B :=
  match m with
  | inl e => inl e
  | inr a => k a
  end.

Declare Scope py_scope.
Delimit Scope py_scope with py.
Notation "x <- m ;; k" := (bind m (fun x => k))
  (at level 61, m at next level, right associativity) : py_scope.
Notation "' p <- m ;; k" := (bind m (fun x => match x with p => k end))
  (at level 61, p pattern, m at next level, right associativity) : py_scope.
Open Scope py_scope.

(** ** Python and NumPy primitives the script calls *)

Module Py.

(** [a / b] on floats. *)
Definition div (a b : R) : result R :=
  if Req_dec_T b 0 then raise ZeroDivisionError else ret (a / b).

(** [math.sqrt(x)]. *)
Definition math_sqrt (x : R) : result R :=
  if Rlt_dec x 0 then raise ValueError else ret (sqrt x).

(** [int(round(n / d))] for integers [n] and [d > 0]: Python 3 rounds a
    tie to the even neighbour. *)
Definition round_div (n d : Z) : Z :=
  let q := (n / d)%Z in
  let r := (n mod d)%Z in
  if (2 * r <? d)%Z then q
  else if (d <? 2 * r)%Z then (q + 1)%Z
  else if Z.even q then q else (q + 1)%Z.

End Py.

Module Np.

(** A complex number, as real and imaginary part. *)
Definition complex : Type := (R * R)%type.

(** Sum of [f n x_n] over the samples [x_n], [n] counted from [i]. *)
Fixpoint sum_from (f : nat -> R -> R) (i : nat) (x : list R) : R :=
  match x with
  | [] => 0
  | xn :: x' => f i xn + sum_from f (S i) x'
  end.

(** Bin [k] of the discrete Fourier transform of [x]:
    [sum_n x_n * exp(-2 pi i k n / N)]. *)
Definition dft_bin (x : list R) (k : nat) : complex :=
  let N := INR (length x) in
  (sum_from (fun n xn => xn * cos (2 * PI * INR k * INR n / N)) 0 x,
   sum_from (fun n xn => - (xn * sin (2 * PI * INR k * INR n / N))) 0 x).

(** [np.fft.fft(x)]; NumPy refuses an empty input. *)
Definition fft_fft (x : list R) : result (list complex) :=
  match x with
  | [] => raise ValueError
  | _ => ret (map (dft_bin x) (seq 0 (length x)))
  end.

(** [np.abs] of one complex value. *)
Definition abs (z : complex) : R := sqrt (fst z * fst z + snd z * snd z).

(** [np.angle] of one complex value: [atan2(im, re)]. *)
Definition angle (z : complex) : R :=
  let (re, im) := z in
  if Rlt_dec 0 re then atan (im / re)
  else if Rlt_dec re 0 then
         if Rle_dec 0 im then atan (im / re) + PI else atan (im / re) - PI
  else if Rlt_dec 0 im then PI / 2
  else if Rlt_dec im 0 then - (PI / 2)
  else 0.

(** [np.fft.fftfreq(N, d)[:N // 2]]: bin [k] lies at [k / (N * d)]. *)
Definition fftfreq_half (N : nat) (d : R) : list R :=
  map (fun k => INR k / (INR N * d)) (seq 0 (N / 2)).

(** The scan of [np.argmax]: [best_i] is the index of the largest value
    [best] seen so far, [i] the index of the head of [l]. *)
Fixpoint argmax_scan (best_i : nat) (best : R) (i : nat) (l : list R) : nat :=
  match l with
  | [] => best_i
  | x :: l' =>
      if Rlt_dec best x then argmax_scan i x (S i) l'
      else argmax_scan best_i best (S i) l'
  end.

(** [np.argmax(l)]: the first index of the maximum; an empty array is a
    [ValueError]. *)
Definition argmax (l : list R) : result nat :=
  match l with
  | [] => raise ValueError
  | x :: l' => ret (argmax_scan 0 x 1 l')
  end.

(** [a[i]]. *)
Definition index {A} (a : list A) (i : nat) : result A :=
  match nth_error a i with
  | Some x => ret x
  | None => raise IndexError
  end.

End Np.

(** ** Global constants (lines 77-79, 94-98) *)

Definition channelGain : Z := 10.

(** Valid sample rates in kilo samples per second. *)
Definition samplerates : list Z :=
  [20; 32; 50; 64; 100; 128; 200; 500; 1000; 2000; 4000; 8000; 10000]%Z.

Definition blocks : nat := 20.
Definition skip : nat := 2 * 1024.
Definition data_points : nat := blocks * 1024 + skip.

(** ** Sample rate selection (lines 127-137) *)

(** One turn of [for sr in samplerates: if samplerate < samplerate_target:
    samplerate = sr]. *)
Definition samplerate_step (samplerate_target : R) (samplerate sr : Z) : Z :=
  if Rlt_dec (IZR samplerate) samplerate_target then sr else samplerate.

(** The loop over a rate table [table], started at [table[0]]. *)
Definition select_from (table : list Z) (samplerate_target : R) : Z :=
  fold_left (samplerate_step samplerate_target) table (nth 0 table 0%Z).

(** [samplerate] after the loop of lines 128-132, for the frequency [freq]. *)
Definition select_samplerate (freq : R) : Z :=
  select_from samplerates (4 * freq).

(** [sample_id] of lines 134-137. *)
Definition sample_id_of (samplerate : Z) : Z :=
  if (samplerate <? 1000)%Z then (100 + Py.round_div samplerate 10)%Z
  else Py.round_div samplerate 1000.

(** ** RMS and DC value of one channel (lines 159-177) *)

(** One turn of [for v in voltage_data: rms = rms + v*v; dc = dc + v;
    n = n + 1], on the triple [(rms, dc, n)]. *)
Definition accumulate (acc : R * R * nat) (v : R) : R * R * nat :=
  let '(rms, dc, n) := acc in (rms + v * v, dc + v, S n).

(** [math.sqrt(rms/n) - dc/n] after the loop. *)
Definition rms_minus_dc (voltage_data : list R) : result R :=
  let '(rms, dc, n) := fold_left accumulate voltage_data (0, 0, 0%nat) in
  q <- Py.div rms (INR n) ;;
  s <- Py.math_sqrt q ;;
  d <- Py.div dc (INR n) ;;
  ret (s - d).

(** The same lines in the arithmetic the script runs in: binary64 floats,
    every operation rounded to nearest.  [rms = 0] and [dc = 0] start as the
    integer 0, which the first addition converts to [0.0]; [n] is an integer
    that the divisions convert to a float. *)
Definition accumulate64 (acc : float * float * int) (v : float) : float * float * int :=
  let '(rms, dc, n) := acc in
  (PrimFloat.add rms (PrimFloat.mul v v), PrimFloat.add dc v,
   PrimInt63.add n 1%uint63).

Definition rms_minus_dc64 (voltage_data : list float) : result float :=
  let '(rms, dc, n) :=
    fold_left accumulate64 voltage_data (PrimFloat.zero, PrimFloat.zero, 0%uint63) in
  if PrimInt63.eqb n 0%uint63 then raise ZeroDivisionError
  else
    let q := PrimFloat.div rms (PrimFloat.of_uint63 n) in
    if PrimFloat.ltb q PrimFloat.zero then raise ValueError
    else ret (PrimFloat.sub (PrimFloat.sqrt q)
                (PrimFloat.div dc (PrimFloat.of_uint63 n))).

(** ** The fundamental of one channel (lines 179-195 and 197-213) *)

Record Fundamental : Type := mkFundamental {
  fundamental_index : nat;
  fundamental_frequency : R;
  fundamental_magnitude : R;
  fundamental_phase : R
}.

(** [np.abs(fft_values)[:N // 2] / N]. *)
Definition fft_magnitude_of (fft_values : list Np.complex) (N : nat) : list R :=
  map (fun z => Np.abs z / INR N) (firstn (N / 2) fft_values).

(** [np.angle(fft_values)[:N // 2]]. *)
Definition fft_phase_of (fft_values : list Np.complex) (N : nat) : list R :=
  map Np.angle (firstn (N / 2) fft_values).

Definition fundamental (voltage_data : list R) (samplerate : Z) : result Fundamental :=
  fft_values <- Np.fft_fft voltage_data ;;
  let N := length voltage_data in
  let frequencies := Np.fftfreq_half N (1 / IZR samplerate / 1000) in
  let fft_magnitude := fft_magnitude_of fft_values N in
  let fft_phase := fft_phase_of fft_values N in
  i <- Np.argmax (skipn 1 fft_magnitude) ;;
  let fundamental_index := (i + 1)%nat in
  f <- Np.index frequencies fundamental_index ;;
  m <- Np.index fft_magnitude fundamental_index ;;
  p <- Np.index fft_phase fundamental_index ;;
  ret (mkFundamental fundamental_index f m p).

(** ** Phase difference (lines 215-220) *)

Definition wrap_deltaphase (deltaphase : R) : R :=
  let deltaphase :=
    if Rgt_dec deltaphase PI then deltaphase - 2 * PI else deltaphase in
  if Rlt_dec deltaphase (- PI) then deltaphase + 2 * PI else deltaphase.

Definition phase_difference (fundamental_phase fundamental_phase2 : R) : R :=
  wrap_deltaphase (fundamental_phase - fundamental_phase2).

(** ** One row of [data] (line 223) *)

Record Row : Type := mkRow {
  Frequency : R;
  Ch1_RMS : R;
  Ch2_RMS : R;
  Gain : R;
  Phase_Difference : R
}.

(** Lines 159-223 on the two scaled captures: the analysis of one step. *)
Definition analyze (freq : R) (samplerate : Z)
    (voltage_data1 voltage_data2 : list R) : result Row :=
  rms1 <- rms_minus_dc voltage_data1 ;;
  rms2 <- rms_minus_dc voltage_data2 ;;
  f1 <- fundamental voltage_data1 samplerate ;;
  f2 <- fundamental voltage_data2 samplerate ;;
  let deltaphase :=
    phase_difference (fundamental_phase f1) (fundamental_phase f2) in
  gain <- Py.div rms1 rms2 ;;
  ret (mkRow freq rms1 rms2 gain deltaphase).

(** ** The instruments *)

(** What the script asks of the tone generator ([sinewave]) and of the
    oscilloscope ([scope]), over a device state [D].  [read_data] may raise;
    [scale_read_data] turns raw samples into volts. *)
Record Instrument (D : Type) : Type := mkInstrument {
  set_frequency : R -> D -> D;
  set_sample_rate : Z -> D -> D;
  read_data : nat -> D -> result (list Z * list Z * D);
  scale_read_data : list Z -> Z -> Z -> list R;
  close_handle : D -> D
}.
Arguments set_frequency {D}.
Arguments set_sample_rate {D}.
Arguments read_data {D}.
Arguments scale_read_data {D}.
Arguments close_handle {D}.

(** ** The sweep (lines 119-226) *)

(** Command line options ([--fstart] and [--fstop] are [int], [--fstep] is
    [float]; nothing checks them). *)
Record Options : Type := mkOptions {
  fstart : Z;
  fstop : Z;
  fstep : R;
  filename : string
}.

(** The variables the loop updates. *)
Record State (D : Type) : Type := mkState {
  freq : R;
  data : list Row;
  device : D
}.
Arguments mkState {D}.
Arguments freq {D}.
Arguments data {D}.
Arguments device {D}.

Section Sweep.

Context {D : Type} (ins : Instrument D) (options : Options).

(** The body of the [while] loop. *)
Definition sweep_step (st : State D) : result (State D) :=
  let dev := set_frequency ins (freq st) (device st) in
  let samplerate := select_samplerate (freq st) in
  let sample_id := sample_id_of samplerate in
  let dev := set_sample_rate ins sample_id dev in
  '(ch1_data, ch2_data, dev) <- read_data ins data_points dev ;;
  let voltage_data1 := scale_read_data ins (skipn skip ch1_data) channelGain 1 in
  let voltage_data2 := scale_read_data ins (skipn skip ch2_data) channelGain 2 in
  row <- analyze (freq st) samplerate voltage_data1 voltage_data2 ;;
  ret (mkState (freq st * fstep options) (data st ++ [row]) dev).

(** How far the loop got. *)
Inductive Outcome : Type :=
| Completed (st : State D)            (* the loop condition became false *)
| Raised (e : exn) (st : State D)     (* the step entered in [st] raised [e] *)
| Running (st : State D).             (* still looping when the fuel ran out *)

(** [while(freq < options.fstop): ...], at most [fuel] tests of the
    condition. *)
Fixpoint sweep_loop (fuel : nat) (st : State D) : Outcome :=
  match fuel with
  | O => Running st
  | S fuel' =>
      if Rlt_dec (freq st) (IZR (fstop options)) then
        match sweep_step st with
        | inl e => Raised e st
        | inr st' => sweep_loop fuel' st'
        end
      else Completed st
  end.

(** Lines 119-122. *)
Definition initial (dev : D) : State D := mkState (IZR (fstart options)) [] dev.

Definition sweep (fuel : nat) (dev : D) : Outcome := sweep_loop fuel (initial dev).

Definition outcome_state (o : Outcome) : State D :=
  match o with
  | Completed st => st
  | Raised _ st => st
  | Running st => st
  end.

End Sweep.

Arguments Completed {D}.
Arguments Raised {D}.
Arguments Running {D}.

(** ** The whole run (lines 119-236) *)

Definition csv_header : list string :=
  ["Frequency"; "Channel 1 RMS Magnitude"; "Channel 2 RMS Magnitude";
   "Gain (Ch1/Ch2)"; "Phase Difference"]%string.

(** What is left when the process has ended: the exception that ended it, if
    any, the file [options.filename] if it was written, and whether the scope
    handle was closed. *)
Record Process : Type := mkProcess {
  uncaught : option exn;
  csv_file : option (list string * list Row);
  handle_closed : bool
}.

(** The script has no [try]: an exception raised in the loop ends the
    process before lines 228-236; [None] while the loop is still running. *)
Definition main {D} (ins : Instrument D) (options : Options)
    (fuel : nat) (dev : D) : option Process :=
  match sweep ins options fuel dev with
  | Running _ => None
  | Raised e _ => Some (mkProcess (Some e) None false)
  | Completed st => Some (mkProcess None (Some (csv_header, data st)) true)
  end.

(** ** Definitions that follow the specification's words *)

Definition list_sum_R (l : list R) : R := fold_right Rplus 0 l.

Definition mean (l : list R) : R := list_sum_R l / INR (length l).

(** [sqrt(mean(v^2)) - mean(v)]. *)
Definition raw_rms_minus_mean (v : list R) : R :=
  sqrt (mean (map (fun x => x * x) v)) - mean v.

(** The standard AC RMS [sqrt(mean((v - mean(v))^2))]. *)
Definition ac_rms (v : list R) : R :=
  sqrt (mean (map (fun x => (x - mean v) * (x - mean v)) v)).

(** Magnitude, normalized by [N], and phase of bin [k] of the transform of
    [v]. *)
Definition bin_magnitude (v : list R) (k : nat) : R :=
  Np.abs (Np.dft_bin v k) / INR (length v).

Definition bin_phase (v : list R) (k : nat) : R :=
  Np.angle (Np.dft_bin v k).

(** [r] is the largest entry of [table] strictly below [t]. *)
Definition largest_below (table : list Z) (t : R) (r : Z) : Prop :=
  In r table /\ IZR r < t /\ forall x, In x table -> IZR x < t -> (x <= r)%Z.

(** [r] is the smallest entry of [table] that is not below [t]. *)
Definition smallest_not_below (table : list Z) (t : R) (r : Z) : Prop :=
  In r table /\ t <= IZR r /\ forall x, In x table -> t <= IZR x -> (r <= x)%Z.

(** The loop has ended: by its condition or by an exception. *)
Definition terminated {D} (o : Outcome (D := D)) : Prop :=
  match o with
  | Running _ => False
  | _ => True
  end.

(** ** A bench instrument for concrete runs *)

(** A scope that sees the constant raw sample [0] on both channels and whose
    transfer fails from capture number [good] on ([None]: never).  The device
    state counts the captures.  Scaling is [(datum - 128) * 5 / (gain * 128)]
    volts. *)
Definition bench (good : option nat) : Instrument nat :=
  {| set_frequency := fun _ d => d;
     set_sample_rate := fun _ d => d;
     read_data := fun n calls =>
       match good with
       | Some g =>
           if (g <=? calls)%nat then raise (ScopeError (-7))
           else ret (repeat 0%Z n, repeat 0%Z n, S calls)
       | None => ret (repeat 0%Z n, repeat 0%Z n, S calls)
       end;
     scale_read_data := fun raw gain _ =>
       map (fun datum => IZR (datum - 128) * (5 / IZR (gain * 128))) raw;
     close_handle := fun d => d |}.

(** ** The arrays handed to the plot (lines 238-242) *)

(** [np.array(data)] of no row is one-dimensional, so [data_array[:,0]] is an
    [IndexError]; otherwise the columns 0, 3 and 4 are extracted and the
    phase is converted to degrees. *)
Definition plot_data (data : list Row) : result (list R * list R * list R) :=
  match data with
  | [] => raise IndexError
  | _ =>
      let frequencies := map Frequency data in
      let gains := map Gain data in
      let phase := map (fun row => Phase_Difference row * 180 / PI) data in
      ret (frequencies, gains, phase)
  end.

(** Lines 119-242: the run of [main] followed by the extraction of the plot
    arrays; an exception there ends the process after the CSV file has been
    written. *)
Definition script {D} (ins : Instrument D) (options : Options)
    (fuel : nat) (dev : D) : option Process :=
  match main ins options fuel dev with
  | None => None
  | Some p =>
      match uncaught p, csv_file p with
      | None, Some (_, rows) =>
          match plot_data rows with
          | inl e => Some (mkProcess (Some e) (csv_file p) (handle_closed p))
          | inr _ => Some p
          end
      | _, _ => Some p
      end
  end.

(** An instrument that always delivers: every capture succeeds and leaves, on
    both channels, at least four scaled samples, with a channel 2 RMS value
    other than zero. *)
Definition delivers {D} (ins : Instrument D) : Prop :=
  forall d, exists ch1 ch2 d',
    read_data ins data_points d = inr (ch1, ch2, d') /\
    (4 <= length (scale_read_data ins (skipn skip ch1) channelGain 1))%nat /\
    (4 <= length (scale_read_data ins (skipn skip ch2) channelGain 2))%nat /\
    raw_rms_minus_mean (scale_read_data ins (skipn skip ch2) channelGain 2) <> 0.

(** What every row that the analysis produces satisfies. *)
Definition row_sound (row : Row) : Prop :=
  Ch2_RMS row <> 0 /\
  Gain row = Ch1_RMS row / Ch2_RMS row /\
  - PI <= Phase_Difference row <= PI.

(** ** Test signals *)

(** [N] samples of a cosine of amplitude [A] and phase [phi] with [k0] whole
    periods in the capture. *)
Definition sinusoid (A : R) (k0 : nat) (phi : R) (N : nat) : list R :=
  map (fun n => A * cos (2 * PI * INR k0 * INR n / INR N + phi)) (seq 0 N).

(** The sum [h 0 + ... + h (n-1)]. *)
Fixpoint sum_upto (h : nat -> R) (n : nat) : R :=
  match n with
  | O => 0
  | S n' => sum_upto h n' + h n'
  end.

(** The angle by which bin [m] of a transform of [N] samples advances per
    sample. *)
Definition bin_angle (N m : nat) : R := 2 * PI * INR m / INR N.

(** * Properties *)

(** ** Sample rate selection *)

Lemma samplerate_step_lt t c sr :
  IZR c < t -> samplerate_step t c sr = sr.
Proof. intros H. unfold samplerate_step. destruct (Rlt_dec (IZR c) t); [reflexivity | contradiction]. Qed.

Lemma samplerate_step_ge t c sr :
  t <= IZR c -> samplerate_step t c sr = c.
Proof. intros H. unfold samplerate_step. destruct (Rlt_dec (IZR c) t); [lra | reflexivity]. Qed.

(** Once the current rate has reached the target, the loop keeps it. *)
Lemma scan_stays t l : forall c,
  t <= IZR c -> fold_left (samplerate_step t) l c = c.
Proof.
  induction l as [|a l IH]; intros c Hc; simpl.
  - reflexivity.
  - rewrite samplerate_step_ge by exact Hc. apply IH, Hc.
Qed.

(** The loop started at the head of the table: the first turn is idle. *)
Lemma select_from_cons t a l :
  select_from (a :: l) t = fold_left (samplerate_step t) l a.
Proof.
  unfold select_from. simpl.
  destruct (Rle_lt_dec t (IZR a)) as [H|H].
  - rewrite samplerate_step_ge by exact H. reflexivity.
  - rewrite samplerate_step_lt by exact H. reflexivity.
Qed.

Lemma last_cons_default {A} (l : list A) : forall a c,
  last (a :: l) c = last l a.
Proof.
  induction l as [|b l IH]; intros a c; [reflexivity|].
  change (last (a :: b :: l) c) with (last (b :: l) c).
  rewrite (IH b c), (IH b a). reflexivity.
Qed.

(** On an ascending table the loop stops at the first entry that is not
    below the target, and at the last entry when there is none. *)
Lemma scan_ascending t l : forall c,
  StronglySorted Z.lt (c :: l) ->
  let r := fold_left (samplerate_step t) l c in
  In r (c :: l) /\
  (forall x, In x (c :: l) -> t <= IZR x -> t <= IZR r /\ (r <= x)%Z) /\
  ((forall x, In x (c :: l) -> IZR x < t) -> r = last l c).
Proof.
  induction l as [|a l IH]; intros c Hs; cbn zeta.
  - simpl. split; [now left|]. split.
    + intros x [<-|[]] Hx. split; [exact Hx | lia].
    + reflexivity.
  - destruct (Rle_lt_dec t (IZR c)) as [Hc|Hc].
    + rewrite scan_stays by exact Hc. split; [now left|]. split.
      * intros x Hx _. split; [exact Hc|].
        inversion Hs as [|? ? _ Hall]; subst.
        destruct Hx as [<-|Hx]; [lia|].
        rewrite Forall_forall in Hall. specialize (Hall x Hx). lia.
      * intros Hall. specialize (Hall c (or_introl eq_refl)). lra.
    + simpl fold_left. rewrite samplerate_step_lt by exact Hc.
      inversion Hs as [|? ? Hs' _]; subst.
      destruct (IH a Hs') as (Hin & Hfirst & Hlast).
      split; [now right|]. split.
      * intros x [<-|Hx] Hge; [lra|]. apply Hfirst; assumption.
      * intros Hall. replace (last (a :: l) c) with (last l a).
        -- apply Hlast. intros x Hx. apply Hall. now right.
        -- symmetry. apply last_cons_default.
Qed.

Lemma samplerates_ascending : StronglySorted Z.lt samplerates.
Proof.
  unfold samplerates.
  repeat (constructor; [|repeat (constructor; [lia|]); constructor]).
  constructor.
Qed.

(** The rate identifiers of lines 134-137 over the whole table. *)
Example sample_ids :
  map sample_id_of samplerates =
  [102; 103; 105; 106; 110; 113; 120; 150; 1; 2; 4; 8; 10]%Z.
Proof. reflexivity. Qed.

Example select_samplerate_10 : select_samplerate 10 = 50%Z.
Proof.
  unfold select_samplerate, samplerates. rewrite select_from_cons. simpl fold_left.
  repeat match goal with
  | |- context [samplerate_step ?t (Zpos ?c) ?sr] =>
      first [ rewrite (samplerate_step_lt t (Zpos c) sr) by lra
            | rewrite (samplerate_step_ge t (Zpos c) sr) by lra ]
  end.
  reflexivity.
Qed.

(** ** RMS and DC value *)

Lemma accumulate_fold l : forall a b n,
  fold_left accumulate l (a, b, n) =
  (a + list_sum_R (map (fun x => x * x) l), b + list_sum_R l, (n + length l)%nat).
Proof.
  induction l as [|v l IH]; intros a b n; simpl.
  - rewrite !Rplus_0_r, Nat.add_0_r. reflexivity.
  - rewrite IH. f_equal; [f_equal; unfold list_sum_R; simpl; ring | lia].
Qed.

Lemma sum_squares_nonneg l : 0 <= list_sum_R (map (fun x => x * x) l).
Proof.
  induction l as [|v l IH]; simpl; [lra|].
  unfold list_sum_R in *. simpl. nra.
Qed.

Lemma INR_length_pos {A} (l : list A) : l <> [] -> 0 < INR (length l).
Proof.
  intros H. apply lt_0_INR. destruct l; [congruence | simpl; lia].
Qed.

Lemma mean_squares_nonneg l : 0 <= mean (map (fun x => x * x) l).
Proof.
  unfold mean. rewrite length_map.
  destruct l as [|v l].
  - simpl. unfold list_sum_R. simpl. unfold Rdiv. rewrite Rmult_0_l. lra.
  - apply Rmult_le_pos; [apply sum_squares_nonneg|].
    left. apply Rinv_0_lt_compat, INR_length_pos. discriminate.
Qed.

(** The loop of lines 160-167 computes the raw RMS minus the mean. *)
Lemma rms_minus_dc_nonempty v :
  v <> [] -> rms_minus_dc v = inr (raw_rms_minus_mean v).
Proof.
  intros Hv. unfold rms_minus_dc. rewrite accumulate_fold.
  change (0 + length v)%nat with (length v).
  pose proof (INR_length_pos v Hv) as Hn.
  unfold Py.div. destruct (Req_dec_T (INR (length v)) 0) as [E|_]; [lra|].
  cbn [bind ret]. unfold Py.math_sqrt.
  rewrite !Rplus_0_l.
  pose proof (mean_squares_nonneg v) as Hq. unfold mean in Hq. rewrite length_map in Hq.
  destruct (Rlt_dec _ 0) as [E|_]; [lra|].
  cbn [bind ret]. unfold raw_rms_minus_mean, mean. rewrite length_map. reflexivity.
Qed.

(** An empty capture divides by [n = 0]. *)
Lemma rms_minus_dc_empty : rms_minus_dc [] = inl ZeroDivisionError.
Proof.
  unfold rms_minus_dc. simpl. unfold Py.div.
  destruct (Req_dec_T 0 0) as [_|E]; [reflexivity | congruence].
Qed.

Lemma rms_minus_dc_ok v r :
  rms_minus_dc v = inr r -> v <> [] /\ r = raw_rms_minus_mean v.
Proof.
  intros H. destruct v as [|x v].
  - rewrite rms_minus_dc_empty in H. discriminate.
  - rewrite rms_minus_dc_nonempty in H by discriminate.
    split; [discriminate | congruence].
Qed.

(** Sum of the squared deviations from [m]. *)
Lemma sum_deviations l m :
  list_sum_R (map (fun x => (x - m) * (x - m)) l) =
  list_sum_R (map (fun x => x * x) l) - 2 * m * list_sum_R l + INR (length l) * (m * m).
Proof.
  induction l as [|v l IH].
  - unfold list_sum_R. simpl. ring.
  - change (length (v :: l)) with (S (length l)). rewrite S_INR.
    unfold list_sum_R in *. simpl. rewrite IH. ring.
Qed.

(** The variance identity: [mean((v - mean v)^2) = mean(v^2) - mean(v)^2]. *)
Lemma mean_deviations v :
  v <> [] ->
  mean (map (fun x => (x - mean v) * (x - mean v)) v) =
  mean (map (fun x => x * x) v) - mean v * mean v.
Proof.
  intros Hv. pose proof (INR_length_pos v Hv) as Hn.
  unfold mean at 1. rewrite sum_deviations, length_map.
  unfold mean. rewrite length_map. field. lra.
Qed.

Lemma variance_nonneg v :
  v <> [] -> 0 <= mean (map (fun x => x * x) v) - mean v * mean v.
Proof.
  intros Hv. rewrite <- mean_deviations by exact Hv.
  set (m := mean v). unfold mean. rewrite length_map.
  apply Rmult_le_pos.
  - clearbody m. clear. induction v as [|x v IH]; unfold list_sum_R in *; simpl; [lra | ].
    pose proof (Rle_0_sqr (x - m)) as Hx. unfold Rsqr in Hx. lra.
  - left. apply Rinv_0_lt_compat, INR_length_pos, Hv.
Qed.

(** The quadratic mean dominates the mean. *)
Lemma mean_le_sqrt_mean_squares v :
  v <> [] -> Rabs (mean v) <= sqrt (mean (map (fun x => x * x) v)).
Proof.
  intros Hv. pose proof (variance_nonneg v Hv) as H.
  rewrite <- sqrt_Rsqr_abs. apply sqrt_le_1_alt. unfold Rsqr. lra.
Qed.

Lemma raw_rms_minus_mean_nonneg v : v <> [] -> 0 <= raw_rms_minus_mean v.
Proof.
  intros Hv. pose proof (mean_le_sqrt_mean_squares v Hv) as H.
  pose proof (Rle_abs (mean v)). unfold raw_rms_minus_mean. lra.
Qed.

Lemma rms_minus_dc_nonneg v r : rms_minus_dc v = inr r -> 0 <= r.
Proof.
  intros H. apply rms_minus_dc_ok in H as [Hv ->].
  apply raw_rms_minus_mean_nonneg, Hv.
Qed.

Lemma ac_rms_variance v :
  v <> [] -> ac_rms v = sqrt (mean (map (fun x => x * x) v) - mean v * mean v).
Proof. intros Hv. unfold ac_rms. rewrite mean_deviations by exact Hv. reflexivity. Qed.

(** The two formulas agree only on a capture of mean zero or on one whose raw
    RMS equals its mean. *)
Lemma raw_eq_ac_iff v :
  v <> [] ->
  raw_rms_minus_mean v = ac_rms v <-> mean v = 0 \/ raw_rms_minus_mean v = 0.
Proof.
  intros Hv. rewrite ac_rms_variance by exact Hv.
  pose proof (variance_nonneg v Hv) as Hvar.
  pose proof (raw_rms_minus_mean_nonneg v Hv) as Hraw.
  pose proof (mean_squares_nonneg v) as Hq.
  unfold raw_rms_minus_mean in *.
  set (q := mean (map (fun x => x * x) v)) in *. set (m := mean v) in *.
  pose proof (sqrt_sqrt q Hq) as Hs. set (a := sqrt q) in *.
  split.
  - intros E.
    assert (E2 : (a - m) * (a - m) = q - m * m).
    { rewrite E. apply sqrt_sqrt, Hvar. }
    assert (E3 : (a - m) * (2 * m) = 0) by nra.
    apply Rmult_integral in E3 as [E3|E3]; [right; exact E3 | left; lra].
  - intros [E|E].
    + rewrite E. rewrite Rmult_0_l, !Rminus_0_r. reflexivity.
    + rewrite E. symmetry. replace (q - m * m) with 0 by nra. apply sqrt_0.
Qed.

(** ** Phase *)

(** [np.angle] is a phase in the half-open interval from [-PI] to [PI]. *)
Lemma angle_range z : - PI < Np.angle z <= PI.
Proof.
  destruct z as [re im]. unfold Np.angle.
  pose proof PI_RGT_0 as Hpi.
  pose proof (atan_bound (im / re)) as [Hlo Hhi].
  destruct (Rlt_dec 0 re) as [Hre|Hre]; [lra|].
  destruct (Rlt_dec re 0) as [Hre'|Hre'].
  - assert (Hinv : / re < 0) by (apply Rinv_lt_0_compat, Hre').
    destruct (Rle_dec 0 im) as [Him|Him].
    + assert (Hq : im / re <= 0) by (unfold Rdiv; nra).
      assert (atan (im / re) <= 0).
      { destruct Hq as [Hq|Hq]; [|rewrite Hq, atan_0; lra].
        pose proof (atan_increasing _ _ Hq) as Hinc. rewrite atan_0 in Hinc. lra. }
      lra.
    + assert (Hq : 0 < im / re) by (unfold Rdiv; nra).
      pose proof (atan_increasing _ _ Hq) as Hinc. rewrite atan_0 in Hinc. lra.
  - destruct (Rlt_dec 0 im); [lra|].
    destruct (Rlt_dec im 0); lra.
Qed.

(** The single fold of lines 217-220 on a difference of two phases. *)
Lemma wrap_deltaphase_cases d :
  (PI < d /\ wrap_deltaphase d = d - 2 * PI) \/
  (d < - PI /\ wrap_deltaphase d = d + 2 * PI) \/
  (- PI <= d <= PI /\ wrap_deltaphase d = d).
Proof.
  pose proof PI_RGT_0 as Hpi. unfold wrap_deltaphase.
  destruct (Rgt_dec d PI) as [H1|H1].
  - left. split; [lra|].
    destruct (Rlt_dec (d - 2 * PI) (- PI)); [lra | reflexivity].
  - destruct (Rlt_dec d (- PI)) as [H2|H2].
    + right. left. split; [lra | reflexivity].
    + right. right. split; [lra | reflexivity].
Qed.

Lemma wrap_deltaphase_range d :
  - (2 * PI) < d < 2 * PI ->
  - PI <= wrap_deltaphase d <= PI /\ (wrap_deltaphase d = - PI <-> d = - PI).
Proof.
  intros Hd. pose proof PI_RGT_0 as Hpi.
  destruct (wrap_deltaphase_cases d) as [[H ->]|[[H ->]|[H ->]]];
    (split; [lra | split; intros; lra]).
Qed.

(** ** The fundamental *)

Lemma argmax_scan_spec (g : nat -> R) : forall n i b,
  (b < i)%nat ->
  (forall j, (j < i)%nat -> g j <= g b) ->
  (forall j, (j < b)%nat -> g j < g b) ->
  let r := Np.argmax_scan b (g b) i (map g (seq i n)) in
  (r < i + n)%nat /\
  (forall j, (j < i + n)%nat -> g j <= g r) /\
  (forall j, (j < r)%nat -> g j < g r).
Proof.
  induction n as [|n IH]; intros i b Hb Hmax Hfirst; cbn zeta; simpl.
  - rewrite Nat.add_0_r. auto.
  - destruct (Rlt_dec (g b) (g i)) as [Hlt|Hge].
    + destruct (IH (S i) i) as (H1 & H2 & H3).
      * lia.
      * intros j Hj. destruct (Nat.eq_dec j i) as [->|Hne]; [lra|].
        specialize (Hmax j ltac:(lia)). lra.
      * intros j Hj. specialize (Hmax j Hj). lra.
      * repeat split; [lia | | exact H3].
        intros j Hj. apply H2. lia.
    + destruct (IH (S i) b) as (H1 & H2 & H3).
      * lia.
      * intros j Hj. destruct (Nat.eq_dec j i) as [->|Hne]; [lra|].
        apply Hmax. lia.
      * exact Hfirst.
      * repeat split; [lia | | exact H3].
        intros j Hj. apply H2. lia.
Qed.

(** [np.argmax] over the values [g 0 .. g (n-1)]: the first index of the
    maximum. *)
Lemma argmax_map (g : nat -> R) n :
  (0 < n)%nat ->
  exists r, Np.argmax (map g (seq 0 n)) = inr r /\ (r < n)%nat /\
    (forall j, (j < n)%nat -> g j <= g r) /\
    (forall j, (j < r)%nat -> g j < g r).
Proof.
  intros Hn. destruct n as [|n]; [lia|].
  simpl. eexists. split; [reflexivity|].
  apply (argmax_scan_spec g n 1 0).
  - lia.
  - intros j Hj. replace j with 0%nat by lia. lra.
  - intros j Hj. lia.
Qed.

Lemma firstn_seq_le n : forall a m,
  (n <= m)%nat -> firstn n (seq a m) = seq a n.
Proof.
  induction n as [|n IH]; intros a m Hle; [reflexivity|].
  destruct m as [|m]; [lia|]. simpl. f_equal. apply IH. lia.
Qed.

Lemma half_le n : (n / 2 <= n)%nat.
Proof. apply Nat.Div0.div_le_upper_bound. lia. Qed.

Lemma fft_magnitude_bins v :
  fft_magnitude_of (map (Np.dft_bin v) (seq 0 (length v))) (length v) =
  map (bin_magnitude v) (seq 0 (length v / 2)).
Proof.
  unfold fft_magnitude_of. rewrite firstn_map, firstn_seq_le by apply half_le.
  rewrite map_map. reflexivity.
Qed.

Lemma fft_phase_bins v :
  fft_phase_of (map (Np.dft_bin v) (seq 0 (length v))) (length v) =
  map (bin_phase v) (seq 0 (length v / 2)).
Proof.
  unfold fft_phase_of. rewrite firstn_map, firstn_seq_le by apply half_le.
  rewrite map_map. reflexivity.
Qed.

Lemma index_map_seq {A} (g : nat -> A) n k :
  (k < n)%nat -> Np.index (map g (seq 0 n)) k = inr (g k).
Proof.
  intros Hk. unfold Np.index. rewrite nth_error_map, nth_error_seq.
  destruct (Nat.ltb_spec k n); [reflexivity | lia].
Qed.

Lemma fft_fft_nonempty v :
  v <> [] -> Np.fft_fft v = inr (map (Np.dft_bin v) (seq 0 (length v))).
Proof. intros Hv. destruct v; [congruence | reflexivity]. Qed.

(** What lines 179-195 return on a capture of at least four samples. *)
Lemma fundamental_spec v samplerate :
  (4 <= length v)%nat ->
  exists i,
    fundamental v samplerate =
      inr (mkFundamental i
             (INR i / (INR (length v) * (1 / IZR samplerate / 1000)))
             (bin_magnitude v i) (bin_phase v i)) /\
    (1 <= i < length v / 2)%nat /\
    (forall j, (1 <= j < length v / 2)%nat -> bin_magnitude v j <= bin_magnitude v i) /\
    (forall j, (1 <= j < i)%nat -> bin_magnitude v j < bin_magnitude v i).
Proof.
  intros Hlen. unfold fundamental.
  rewrite fft_fft_nonempty by (intros ->; simpl in Hlen; lia).
  cbn [bind ret]. rewrite fft_magnitude_bins, fft_phase_bins.
  assert (Hhalf : (2 <= length v / 2)%nat).
  { apply Nat.div_le_lower_bound; lia. }
  rewrite skipn_map, skipn_seq. change (0 + 1)%nat with 1%nat.
  rewrite <- seq_shift, map_map.
  destruct (argmax_map (fun j => bin_magnitude v (S j)) (length v / 2 - 1))
    as (r & Hr & Hlt & Hmax & Hfirst); [lia|].
  change (map (fun x0 : nat => bin_magnitude v (S x0))) with
    (map (fun j : nat => bin_magnitude v (S j))).
  rewrite Hr. cbn [bind ret].
  unfold Np.fftfreq_half.
  rewrite !index_map_seq by lia. cbn [bind ret].
  exists (r + 1)%nat. split; [reflexivity|]. split; [lia|]. split.
  - intros j Hj. specialize (Hmax (j - 1)%nat ltac:(lia)). cbn beta in Hmax.
    replace (S (j - 1)) with j in Hmax by lia.
    replace (r + 1)%nat with (S r) by lia. exact Hmax.
  - intros j Hj. specialize (Hfirst (j - 1)%nat ltac:(lia)). cbn beta in Hfirst.
    replace (S (j - 1)) with j in Hfirst by lia.
    replace (r + 1)%nat with (S r) by lia. exact Hfirst.
Qed.

(** ** The analysis of one step *)

Lemma div_ok a b : b <> 0 -> Py.div a b = inr (a / b).
Proof. intros H. unfold Py.div. destruct (Req_dec_T b 0); [contradiction | reflexivity]. Qed.

Lemma div_zero a : Py.div a 0 = inl ZeroDivisionError.
Proof. unfold Py.div. destruct (Req_dec_T 0 0); [reflexivity | congruence]. Qed.

Lemma div_inv a b q : Py.div a b = inr q -> b <> 0 /\ q = a / b.
Proof.
  unfold Py.div. destruct (Req_dec_T b 0); [discriminate|].
  intros [= <-]. auto.
Qed.

(** A capture of at least four samples per channel with a reference RMS
    other than zero gives a row. *)
Lemma analyze_ok freq samplerate v1 v2 :
  (4 <= length v1)%nat -> (4 <= length v2)%nat ->
  raw_rms_minus_mean v2 <> 0 ->
  exists p,
    analyze freq samplerate v1 v2 =
      inr (mkRow freq (raw_rms_minus_mean v1) (raw_rms_minus_mean v2)
             (raw_rms_minus_mean v1 / raw_rms_minus_mean v2) p).
Proof.
  intros H1 H2 Hz. unfold analyze.
  rewrite !rms_minus_dc_nonempty by (intros ->; simpl in *; lia).
  cbn [bind ret].
  destruct (fundamental_spec v1 samplerate H1) as (i1 & -> & _).
  destruct (fundamental_spec v2 samplerate H2) as (i2 & -> & _).
  cbn [bind ret]. rewrite div_ok by exact Hz. cbn [bind ret].
  eexists. reflexivity.
Qed.

(** What a row that was produced says. *)
Lemma analyze_inv freq samplerate v1 v2 row :
  analyze freq samplerate v1 v2 = inr row ->
  Frequency row = freq /\
  rms_minus_dc v1 = inr (Ch1_RMS row) /\
  rms_minus_dc v2 = inr (Ch2_RMS row) /\
  Ch2_RMS row <> 0 /\
  Gain row = Ch1_RMS row / Ch2_RMS row /\
  exists f1 f2,
    fundamental v1 samplerate = inr f1 /\ fundamental v2 samplerate = inr f2 /\
    Phase_Difference row = phase_difference (fundamental_phase f1) (fundamental_phase f2).
Proof.
  unfold analyze.
  destruct (rms_minus_dc v1) as [e|rms1]; [discriminate|].
  destruct (rms_minus_dc v2) as [e|rms2]; [discriminate|].
  destruct (fundamental v1 samplerate) as [e|f1]; [discriminate|].
  destruct (fundamental v2 samplerate) as [e|f2]; [discriminate|].
  cbn [bind ret].
  destruct (Py.div rms1 rms2) as [e|g] eqn:Hg; [discriminate|].
  apply div_inv in Hg as [Hnz ->].
  cbn [bind ret]. intros [= <-]. cbn.
  repeat split; try assumption. exists f1, f2. auto.
Qed.

(** ** The sweep loop *)

Section SweepFacts.

Context {D : Type} (ins : Instrument D) (options : Options).

Let start := IZR (fstart options).
Let stop := IZR (fstop options).
Let step := fstep options.

Lemma sweep_step_inv st st' :
  sweep_step ins options st = inr st' ->
  freq st' = freq st * step /\
  exists row v1 v2,
    data st' = data st ++ [row] /\
    analyze (freq st) (select_samplerate (freq st)) v1 v2 = inr row.
Proof.
  unfold sweep_step.
  destruct (read_data ins data_points _) as [e|[[ch1 ch2] dev]]; [discriminate|].
  cbn [bind ret].
  destruct (analyze _ _ _ _) as [e|row] eqn:Hrow; [discriminate|].
  cbn [bind ret]. intros [= <-]. cbn. split; [reflexivity|].
  do 3 eexists. split; [reflexivity | exact Hrow].
Qed.

(** More fuel does not change how the loop ended. *)
Lemma sweep_loop_fuel fuel : forall st n,
  terminated (sweep_loop ins options fuel st) ->
  sweep_loop ins options (fuel + n) st = sweep_loop ins options fuel st.
Proof.
  induction fuel as [|fuel IH]; intros st n Hterm; [destruct Hterm|].
  simpl in *.
  destruct (Rlt_dec (freq st) (IZR (fstop options))); [|reflexivity].
  destruct (sweep_step ins options st) as [e|st']; [reflexivity|].
  apply IH, Hterm.
Qed.

(** The loop invariant: the rows added from [st] on carry the frequencies
    [freq st * step ^ i], all below the stop frequency, and the loop ends
    normally only when the next frequency is not below it. *)
Lemma sweep_loop_frequencies fuel : forall st,
  let o := sweep_loop ins options fuel st in
  exists k,
    freq (outcome_state o) = freq st * step ^ k /\
    map Frequency (data (outcome_state o)) =
      map Frequency (data st) ++ map (fun i => freq st * step ^ i) (seq 0 k) /\
    (forall i, (i < k)%nat -> freq st * step ^ i < stop) /\
    (forall st', o = Completed st' -> stop <= freq st * step ^ k).
Proof.
  induction fuel as [|fuel IH]; intros st; cbn zeta.
  - exists 0%nat. simpl. rewrite app_nil_r, Rmult_1_r.
    repeat split; [intros; lia | discriminate].
  - simpl. destruct (Rlt_dec (freq st) (IZR (fstop options))) as [Hlt|Hge].
    + destruct (sweep_step ins options st) as [e|st1] eqn:Hstep.
      * exists 0%nat. simpl. rewrite app_nil_r, Rmult_1_r.
        repeat split; [intros; lia | discriminate].
      * apply sweep_step_inv in Hstep as (Hf & row & v1 & v2 & Hd & Hrow).
        apply analyze_inv in Hrow as (Hfr & _).
        destruct (IH st1) as (k & Hk1 & Hk2 & Hk3 & Hk4).
        exists (S k). rewrite Hk1, Hk2, Hd, Hf.
        split; [simpl; ring|]. split.
        -- rewrite map_app, <- app_assoc. f_equal. simpl map at 1.
           rewrite Hfr. simpl. rewrite Rmult_1_r. f_equal.
           rewrite <- seq_shift, map_map. apply map_ext.
           intros i. simpl. ring.
        -- split.
           ++ intros i Hi. destruct i as [|i]; [simpl; fold stop in Hlt; lra|].
              specialize (Hk3 i ltac:(lia)). rewrite Hf in Hk3.
              simpl. replace (freq st * (step * step ^ i)) with (freq st * step * step ^ i) by ring.
              exact Hk3.
           ++ intros st' Hst'. specialize (Hk4 st' Hst'). rewrite Hf in Hk4.
              simpl. replace (freq st * (step * step ^ k)) with (freq st * step * step ^ k) by ring.
              exact Hk4.
    + exists 0%nat. simpl. rewrite app_nil_r, Rmult_1_r.
      repeat split; [intros; lia|]. intros _ _. fold stop in Hge. lra.
Qed.

(** Once some power of the step carries the frequency to the stop
    frequency, that many steps end the loop. *)
Lemma sweep_loop_terminates K : forall st,
  stop <= freq st * step ^ K ->
  terminated (sweep_loop ins options (S K) st).
Proof.
  induction K as [|K IH]; intros st Hreach.
  - simpl in *. destruct (Rlt_dec (freq st) (IZR (fstop options))) as [Hlt|Hge].
    + fold stop in Hlt. lra.
    + exact I.
  - change (sweep_loop ins options (S (S K)) st) with
      (if Rlt_dec (freq st) (IZR (fstop options)) then
         match sweep_step ins options st with
         | inl e => Raised e st
         | inr st' => sweep_loop ins options (S K) st'
         end
       else Completed st).
    destruct (Rlt_dec (freq st) (IZR (fstop options))); [|exact I].
    destruct (sweep_step ins options st) as [e|st1] eqn:Hstep; [exact I|].
    apply IH. apply sweep_step_inv in Hstep as (Hf & _). rewrite Hf.
    simpl in Hreach. replace (freq st * step * step ^ K) with (freq st * (step * step ^ K)) by ring.
    exact Hreach.
Qed.

(** With a step between 0 and 1 a frequency below the stop frequency stays
    below it: the loop condition never becomes false. *)
Lemma sweep_loop_never_completes fuel : forall st,
  0 <= step <= 1 -> 0 <= freq st < stop ->
  forall st', sweep_loop ins options fuel st <> Completed st'.
Proof.
  induction fuel as [|fuel IH]; intros st Hstep Hfreq st'; simpl; [discriminate|].
  destruct (Rlt_dec (freq st) (IZR (fstop options))) as [Hlt|Hge].
  - destruct (sweep_step ins options st) as [e|st1] eqn:Hs; [discriminate|].
    apply IH; [exact Hstep|].
    apply sweep_step_inv in Hs as (Hf & _). rewrite Hf. nra.
  - fold stop in Hge. lra.
Qed.

(** Every row of [data] comes from a successful analysis. *)
Lemma sweep_loop_rows (P : Row -> Prop) :
  (forall f sr v1 v2 row, analyze f sr v1 v2 = inr row -> P row) ->
  forall fuel st, Forall P (data st) ->
  Forall P (data (outcome_state (sweep_loop ins options fuel st))).
Proof.
  intros HP. induction fuel as [|fuel IH]; intros st Hst; simpl; [exact Hst|].
  destruct (Rlt_dec (freq st) (IZR (fstop options))); [|exact Hst].
  destruct (sweep_step ins options st) as [e|st1] eqn:Hs; [exact Hst|].
  apply IH. apply sweep_step_inv in Hs as (_ & row & v1 & v2 & -> & Hrow).
  apply Forall_app. split; [exact Hst|]. constructor; [|constructor].
  eapply HP, Hrow.
Qed.

End SweepFacts.

(** A geometric sequence with positive start and ratio above 1 ascends. *)
Lemma geometric_ascending (a r : R) n : forall i,
  0 < a -> 1 < r ->
  StronglySorted Rlt (map (fun k => a * r ^ k) (seq i n)).
Proof.
  induction n as [|n IH]; intros i Ha Hr; simpl; constructor.
  - apply IH; assumption.
  - rewrite Forall_map, Forall_forall. intros k Hk. apply in_seq in Hk.
    apply Rmult_lt_compat_l; [exact Ha|]. apply Rlt_pow; [exact Hr | lia].
Qed.

(** Some power of a ratio above 1 carries a positive start past any bound. *)
Lemma geometric_reaches (a r b : R) :
  0 < a -> 1 < r -> exists K, b <= a * r ^ K.
Proof.
  intros Ha Hr.
  destruct (Pow_x_infinity r) with (b := b / a) as [N HN].
  - rewrite Rabs_pos_eq by lra. exact Hr.
  - exists N. specialize (HN N (Nat.le_refl N)).
    rewrite Rabs_pos_eq in HN by (apply pow_le; lra).
    apply Rge_le in HN. apply (Rmult_le_compat_l a) in HN; [|lra].
    replace (a * (b / a)) with b in HN by (field; lra). exact HN.
Qed.

(** ** Runs on the bench *)

Lemma skipn_repeat {A} (x : A) k : forall n,
  skipn k (repeat x n) = repeat x (n - k).
Proof.
  induction k as [|k IH]; intros n.
  - rewrite Nat.sub_0_r. reflexivity.
  - destruct n as [|n]; [reflexivity|]. simpl. apply IH.
Qed.

Lemma list_sum_R_repeat c n : list_sum_R (repeat c n) = INR n * c.
Proof.
  induction n as [|n IH].
  - unfold list_sum_R. simpl. ring.
  - rewrite S_INR. unfold list_sum_R in *. simpl. rewrite IH. ring.
Qed.

(** A constant negative capture has a positive RMS value. *)
Lemma raw_rms_minus_mean_repeat c n :
  (0 < n)%nat -> c < 0 -> 0 < raw_rms_minus_mean (repeat c n).
Proof.
  intros Hn Hc. unfold raw_rms_minus_mean.
  assert (Hm : mean (repeat c n) = c).
  { unfold mean. rewrite list_sum_R_repeat, repeat_length. field.
    apply not_0_INR. lia. }
  rewrite Hm. pose proof (sqrt_pos (mean (map (fun x => x * x) (repeat c n)))). lra.
Qed.

Lemma capture_length : (data_points - skip = blocks * 1024)%nat.
Proof. unfold data_points, skip, blocks. lia. Qed.

(** The voltage the bench reports on both channels. *)
Lemma bench_voltage_negative : IZR (0 - 128) * (5 / IZR (channelGain * 128)) < 0.
Proof.
  unfold channelGain. simpl Z.sub. simpl Z.mul.
  assert (0 < 5 / 1280) by (apply Rdiv_lt_0_compat; lra). lra.
Qed.

Lemma bench_step good options st :
  match good with Some g => (device st < g)%nat | None => True end ->
  exists row,
    Frequency row = freq st /\
    sweep_step (bench good) options st =
      inr (mkState (freq st * fstep options) (data st ++ [row]) (S (device st))).
Proof.
  intros Hgood. unfold sweep_step.
  cbn [bench read_data set_frequency set_sample_rate scale_read_data].
  assert (Hread :
    match good with
    | Some g =>
        if (g <=? device st)%nat then raise (ScopeError (-7))
        else ret (repeat 0%Z data_points, repeat 0%Z data_points, S (device st))
    | None => ret (repeat 0%Z data_points, repeat 0%Z data_points, S (device st))
    end = inr (repeat 0%Z data_points, repeat 0%Z data_points, S (device st))).
  { destruct good as [g|]; [|reflexivity].
    destruct (Nat.leb_spec g (device st)); [lia | reflexivity]. }
  rewrite Hread. cbn [bind ret].
  rewrite skipn_repeat, map_repeat, capture_length.
  set (c := IZR (0 - 128) * (5 / IZR (channelGain * 128))).
  destruct (analyze_ok (freq st) (select_samplerate (freq st))
              (repeat c (blocks * 1024)) (repeat c (blocks * 1024)))
    as [p Hp].
  - rewrite repeat_length. unfold blocks. lia.
  - rewrite repeat_length. unfold blocks. lia.
  - apply Rgt_not_eq, Rlt_gt, raw_rms_minus_mean_repeat.
    + unfold blocks. lia.
    + apply bench_voltage_negative.
  - rewrite Hp. cbn [bind ret]. eexists. split; [|reflexivity]. reflexivity.
Qed.

Lemma bench_step_fails g options st :
  (g <= device st)%nat ->
  sweep_step (bench (Some g)) options st = inl (ScopeError (-7)).
Proof.
  intros Hg. unfold sweep_step.
  cbn [bench read_data set_frequency set_sample_rate scale_read_data].
  destruct (Nat.leb_spec g (device st)); [reflexivity | lia].
Qed.

Lemma sweep_loop_enter {D} (ins : Instrument D) options fuel st st1 :
  sweep_step ins options st = inr st1 ->
  freq st < IZR (fstop options) ->
  sweep_loop ins options (S fuel) st = sweep_loop ins options fuel st1.
Proof.
  intros Hs Hlt. simpl.
  destruct (Rlt_dec (freq st) (IZR (fstop options))); [|contradiction].
  rewrite Hs. reflexivity.
Qed.

Lemma sweep_loop_raise {D} (ins : Instrument D) options fuel st e :
  sweep_step ins options st = inl e ->
  freq st < IZR (fstop options) ->
  sweep_loop ins options (S fuel) st = Raised e st.
Proof.
  intros Hs Hlt. simpl.
  destruct (Rlt_dec (freq st) (IZR (fstop options))); [|contradiction].
  rewrite Hs. reflexivity.
Qed.

Lemma sweep_loop_exit {D} (ins : Instrument D) options fuel st :
  IZR (fstop options) <= freq st ->
  sweep_loop ins options (S fuel) st = Completed st.
Proof.
  intros Hge. simpl.
  destruct (Rlt_dec (freq st) (IZR (fstop options))); [lra | reflexivity].
Qed.

(** The sweep from 100 Hz to 1000 Hz with step 2 records four rows. *)
Example sweep_100_1000_2 :
  exists st,
    sweep (bench None) (mkOptions 100 1000 2 "bodeplot.csv") 5 0%nat = Completed st /\
    map Frequency (data st) = [100; 200; 400; 800].
Proof.
  set (options := mkOptions 100 1000 2 "bodeplot.csv").
  unfold sweep, initial. cbn [fstart options].
  destruct (bench_step None options (mkState 100 [] 0%nat) I) as (r1 & F1 & S1).
  rewrite (sweep_loop_enter _ _ _ _ _ S1) by (cbn; lra). cbn [freq data device app fstep options] in *.
  destruct (bench_step None options (mkState (100 * 2) [r1] 1%nat) I) as (r2 & F2 & S2).
  rewrite (sweep_loop_enter _ _ _ _ _ S2) by (cbn; lra). cbn [freq data device app fstep options] in *.
  destruct (bench_step None options (mkState (100 * 2 * 2) [r1; r2] 2%nat) I) as (r3 & F3 & S3).
  rewrite (sweep_loop_enter _ _ _ _ _ S3) by (cbn; lra). cbn [freq data device app fstep options] in *.
  destruct (bench_step None options (mkState (100 * 2 * 2 * 2) [r1; r2; r3] 3%nat) I) as (r4 & F4 & S4).
  rewrite (sweep_loop_enter _ _ _ _ _ S4) by (cbn; lra). cbn [freq data device app fstep options] in *.
  rewrite sweep_loop_exit by (cbn; lra).
  eexists. split; [reflexivity|]. cbn [map data]. rewrite F1, F2, F3, F4.
  repeat (f_equal; try lra).
Qed.

(** ** The recorded phase differences *)

Lemma fundamental_phase_range v samplerate f :
  fundamental v samplerate = inr f -> - PI < fundamental_phase f <= PI.
Proof.
  unfold fundamental.
  destruct (Np.fft_fft v) as [e|fft_values]; [discriminate|]. cbn [bind ret].
  destruct (Np.argmax _) as [e|i]; [discriminate|]. cbn [bind ret].
  destruct (Np.index (Np.fftfreq_half _ _) _) as [e|fr]; [discriminate|]. cbn [bind ret].
  destruct (Np.index (fft_magnitude_of _ _) _) as [e|m]; [discriminate|]. cbn [bind ret].
  destruct (Np.index (fft_phase_of _ _) _) as [e|p] eqn:Hp; [discriminate|]. cbn [bind ret].
  intros [= <-]. cbn.
  unfold Np.index in Hp.
  destruct (nth_error _ _) as [p'|] eqn:Hnth; [|discriminate].
  injection Hp as ->. apply nth_error_In in Hnth.
  unfold fft_phase_of in Hnth. apply in_map_iff in Hnth as (z & <- & _).
  apply angle_range.
Qed.

(** Every recorded phase difference lies between [- PI] and [PI]. *)
Lemma recorded_phase_range {D} (ins : Instrument D) options fuel dev :
  Forall (fun row => - PI <= Phase_Difference row <= PI)
    (data (outcome_state (sweep ins options fuel dev))).
Proof.
  unfold sweep. apply sweep_loop_rows; [|constructor].
  intros f sr v1 v2 row Hrow.
  apply analyze_inv in Hrow as (_ & _ & _ & _ & _ & f1 & f2 & H1 & H2 & ->).
  apply fundamental_phase_range in H1, H2.
  pose proof PI_RGT_0. unfold phase_difference.
  apply wrap_deltaphase_range. lra.
Qed.

(** ** Steps that succeed, and the count of rows *)

Lemma delivering_step {D} (ins : Instrument D) options st :
  delivers ins -> exists st', sweep_step ins options st = inr st'.
Proof.
  intros Hgood. unfold sweep_step.
  destruct (Hgood (set_sample_rate ins (sample_id_of (select_samplerate (freq st)))
                     (set_frequency ins (freq st) (device st))))
    as (ch1 & ch2 & d' & -> & H1 & H2 & Hnz).
  cbn [bind ret].
  destruct (analyze_ok (freq st) (select_samplerate (freq st)) _ _ H1 H2 Hnz)
    as [p ->].
  cbn [bind ret]. eauto.
Qed.

Lemma delivering_loop_never_raises {D} (ins : Instrument D) options fuel :
  delivers ins ->
  forall st e st', sweep_loop ins options fuel st <> Raised e st'.
Proof.
  intros Hgood. induction fuel as [|fuel IH]; intros st e st'; simpl; [discriminate|].
  destruct (Rlt_dec (freq st) (IZR (fstop options))); [|discriminate].
  destruct (delivering_step ins options st Hgood) as [st1 ->]. apply IH.
Qed.

Lemma bench_delivers : delivers (bench None).
Proof.
  intros d. exists (repeat 0%Z data_points), (repeat 0%Z data_points), (S d).
  cbn [bench read_data scale_read_data].
  split; [reflexivity|].
  rewrite skipn_repeat, map_repeat, capture_length, repeat_length.
  split; [unfold blocks; lia|]. split; [unfold blocks; lia|].
  apply Rgt_not_eq, Rlt_gt, raw_rms_minus_mean_repeat.
  - unfold blocks. lia.
  - apply bench_voltage_negative.
Qed.

Section SweepCount.

Context {D : Type} (ins : Instrument D) (options : Options).

(** The loop adds one row per step it completes: after [k <= fuel] steps the
    rows added from [st] on carry the frequencies [freq st * fstep ^ i] for
    [i < k], all below the stop frequency; the loop ends normally only at a
    frequency that is not below the stop frequency, it ends by an exception
    only in a step it entered, and it runs out of fuel only after [fuel]
    steps. *)
Lemma sweep_loop_count fuel : forall st,
  exists k,
    (k <= fuel)%nat /\
    map Frequency (data (outcome_state (sweep_loop ins options fuel st))) =
      map Frequency (data st) ++
      map (fun i => freq st * fstep options ^ i) (seq 0 k) /\
    (forall i, (i < k)%nat -> freq st * fstep options ^ i < IZR (fstop options)) /\
    match sweep_loop ins options fuel st with
    | Completed _ => IZR (fstop options) <= freq st * fstep options ^ k
    | Raised e s =>
        freq st * fstep options ^ k < IZR (fstop options) /\
        sweep_step ins options s = inl e
    | Running _ => k = fuel
    end.
Proof.
  induction fuel as [|fuel IH]; intros st.
  - exists 0%nat. simpl. rewrite app_nil_r.
    repeat split; [lia | intros; lia].
  - simpl. destruct (Rlt_dec (freq st) (IZR (fstop options))) as [Hlt|Hge].
    + destruct (sweep_step ins options st) as [e|st1] eqn:Hstep.
      * exists 0%nat. simpl. rewrite app_nil_r, Rmult_1_r.
        repeat split; [lia | intros; lia | exact Hlt | exact Hstep].
      * pose proof Hstep as Hinv.
        apply sweep_step_inv in Hinv as (Hf & row & v1 & v2 & Hd & Hrow).
        apply analyze_inv in Hrow as (Hfr & _).
        destruct (IH st1) as (k & Hle & Hmap & Hbelow & Hend).
        exists (S k). split; [lia|]. split; [|split].
        -- rewrite Hmap, Hd, Hf, map_app, <- app_assoc. f_equal.
           simpl map at 1. rewrite Hfr. simpl. rewrite Rmult_1_r. f_equal.
           rewrite <- seq_shift, map_map. apply map_ext.
           intros i. simpl. ring.
        -- intros i Hi. destruct i as [|i]; [simpl; lra|].
           specialize (Hbelow i ltac:(lia)). rewrite Hf in Hbelow.
           simpl. replace (freq st * (fstep options * fstep options ^ i))
             with (freq st * fstep options * fstep options ^ i) by ring.
           exact Hbelow.
        -- rewrite Hf in Hend.
           replace (freq st * fstep options ^ S k)
             with (freq st * fstep options * fstep options ^ k) by (simpl; ring).
           destruct (sweep_loop ins options fuel st1); [exact Hend | exact Hend | lia].
    + exists 0%nat. simpl. rewrite app_nil_r, Rmult_1_r.
      repeat split; [lia | intros; lia | lra].
Qed.

End SweepCount.

(** Among the powers that reach a bound there is a first one. *)
Lemma least_reach (a r b : R) (K0 : nat) :
  b <= a * r ^ K0 ->
  exists K, b <= a * r ^ K /\ forall k, (k < K)%nat -> a * r ^ k < b.
Proof.
  intros HK0.
  assert (Hscan : forall n,
            (forall k, (k < n)%nat -> a * r ^ k < b) \/
            (exists K, b <= a * r ^ K /\ forall k, (k < K)%nat -> a * r ^ k < b)).
  { induction n as [|n [IH|IH]].
    - left. intros k Hk. lia.
    - destruct (Rle_lt_dec b (a * r ^ n)) as [Hn|Hn].
      + right. exists n. split; assumption.
      + left. intros k Hk. destruct (Nat.eq_dec k n) as [->|Hne]; [exact Hn|].
        apply IH. lia.
    - right. exact IH. }
  destruct (Hscan (S K0)) as [Hall|Hex]; [|exact Hex].
  specialize (Hall K0 ltac:(lia)). lra.
Qed.

(** ** Where the exact RMS value is zero *)

Lemma squared_deviations_zero m l :
  list_sum_R (map (fun x => (x - m) * (x - m)) l) = 0 ->
  Forall (eq m) l.
Proof.
  induction l as [|x l IH]; intros Hsum; [constructor|].
  assert (Hrest : 0 <= list_sum_R (map (fun x => (x - m) * (x - m)) l)).
  { clear. induction l as [|y l IH]; unfold list_sum_R in *; simpl; [lra|].
    pose proof (Rle_0_sqr (y - m)) as Hy. unfold Rsqr in Hy. lra. }
  pose proof (Rle_0_sqr (x - m)) as Hx. unfold Rsqr in Hx.
  unfold list_sum_R in *. simpl in Hsum.
  constructor.
  - assert (E : (x - m) * (x - m) = 0) by lra.
    apply Rmult_integral in E. lra.
  - apply IH. lra.
Qed.

Lemma raw_rms_minus_mean_constant c n :
  (0 < n)%nat -> raw_rms_minus_mean (repeat c n) = Rabs c - c.
Proof.
  intros Hn. assert (HN : INR n <> 0) by (apply not_0_INR; lia).
  unfold raw_rms_minus_mean, mean.
  rewrite map_repeat, !list_sum_R_repeat, !repeat_length.
  replace (INR n * (c * c) / INR n) with (Rsqr c) by (unfold Rsqr; field; exact HN).
  replace (INR n * c / INR n) with c by (field; exact HN).
  rewrite sqrt_Rsqr_abs. reflexivity.
Qed.

(** The exact value is zero on the constant captures that are not negative,
    and nowhere else. *)
Lemma raw_rms_minus_mean_zero_iff v :
  v <> [] ->
  raw_rms_minus_mean v = 0 <-> exists c, 0 <= c /\ v = repeat c (length v).
Proof.
  intros Hv. pose proof (INR_length_pos v Hv) as HN. split.
  - intros Hz. exists (mean v).
    pose proof (mean_squares_nonneg v) as Hq.
    pose proof (mean_deviations v Hv) as Hdev.
    unfold raw_rms_minus_mean in Hz.
    pose proof (sqrt_pos (mean (map (fun x => x * x) v))) as Hs.
    pose proof (sqrt_sqrt _ Hq) as Hss.
    split; [lra|].
    apply Forall_eq_repeat, squared_deviations_zero.
    assert (Hmz : mean (map (fun x => (x - mean v) * (x - mean v)) v) = 0)
      by (rewrite Hdev; nra).
    unfold mean in Hmz at 1. rewrite length_map in Hmz.
    apply (Rmult_eq_compat_r (INR (length v))) in Hmz.
    rewrite Rmult_0_l in Hmz. rewrite <- Hmz. field. lra.
  - intros (c & Hc & E). rewrite E.
    rewrite raw_rms_minus_mean_constant.
    + rewrite Rabs_pos_eq by exact Hc. ring.
    + destruct v; [congruence | simpl; lia].
Qed.

(** * The claims of the specification *)

(** ** C1: sample rate selection *)

(** C1, counterexample.  At 10 Hz the target is 40: the entries 20 and 32 lie
    below it, yet the loop selects 50, which is not below the target, so the
    selected rate is not the largest entry strictly below [4 * freq]. *)
Lemma select_samplerate_not_largest_below :
  0 < 10 /\
  (exists x, In x samplerates /\ IZR x < 4 * 10) /\
  ~ largest_below samplerates (4 * 10) (select_samplerate 10).
Proof.
  split; [lra|]. split.
  - exists 32%Z. split; [simpl; tauto | lra].
  - rewrite select_samplerate_10. intros (_ & Hlt & _). lra.
Qed.

(** C1, amended.  For every target frequency above 0 the selected sample rate
    is a table entry; when some entry is not below [4 * freq] it is the
    smallest such entry; when every entry is below [4 * freq] it is the
    table's highest entry, 10000; when every entry exceeds [4 * freq] it is the
    table's lowest entry, 20. *)
Theorem select_samplerate_smallest_not_below (f : R) :
  0 < f ->
  In (select_samplerate f) samplerates /\
  ((exists x, In x samplerates /\ 4 * f <= IZR x) ->
   smallest_not_below samplerates (4 * f) (select_samplerate f)) /\
  ((forall x, In x samplerates -> IZR x < 4 * f) ->
   select_samplerate f = 10000%Z) /\
  ((forall x, In x samplerates -> 4 * f < IZR x) ->
   select_samplerate f = 20%Z).
Proof.
  intros _. unfold select_samplerate.
  pose proof samplerates_ascending as Hs. unfold samplerates in *.
  rewrite select_from_cons.
  destruct (scan_ascending (4 * f) _ _ Hs) as (Hin & Hfirst & Hlast).
  split; [exact Hin|]. split; [|split].
  - intros (x & Hx & Hge). destruct (Hfirst x Hx Hge) as [Hr _].
    split; [exact Hin|]. split; [exact Hr|].
    intros y Hy Hyge. apply (Hfirst y Hy Hyge).
  - intros Hall. rewrite (Hlast Hall). reflexivity.
  - intros Hall. apply scan_stays.
    specialize (Hall 20%Z (or_introl eq_refl)). lra.
Qed.

Lemma select_samplerate_smallest_not_below_witness :
  smallest_not_below samplerates (4 * 10) (select_samplerate 10).
Proof.
  destruct (select_samplerate_smallest_not_below 10) as (_ & H & _); [lra|].
  apply H. exists 50%Z. split; [simpl; tauto | lra].
Defined.

(** ** C2: the recorded frequencies *)

(** C2.  For a valid configuration (start above 0, stop above start, step
    above 1) there is a first power [K >= 1] with
    [start * step ^ K >= stop], and however far the loop has got the recorded
    frequencies are strictly increasing and strictly below the stop
    frequency, with [k]-th element [start * step ^ k]: exactly one row per
    completed step.  When the loop ends by its condition the rows are those
    of [k = 0 .. K-1]; when a step raises, those of the steps before it; more
    than [K] tests of the condition always end the loop; and on instruments
    that deliver it ends by its condition with the [K] rows recorded. *)
Theorem sweep_frequencies_geometric {D} (ins : Instrument D) (options : Options)
    (dev : D) :
  0 < IZR (fstart options) ->
  IZR (fstart options) < IZR (fstop options) ->
  1 < fstep options ->
  exists K,
    (0 < K)%nat /\
    (forall k, (k < K)%nat ->
       IZR (fstart options) * fstep options ^ k < IZR (fstop options)) /\
    IZR (fstop options) <= IZR (fstart options) * fstep options ^ K /\
    (forall fuel,
       StronglySorted Rlt
         (map Frequency (data (outcome_state (sweep ins options fuel dev)))) /\
       Forall (fun f => f < IZR (fstop options))
         (map Frequency (data (outcome_state (sweep ins options fuel dev)))) /\
       (forall st, sweep ins options fuel dev = Completed st ->
          map Frequency (data st) =
          map (fun k => IZR (fstart options) * fstep options ^ k) (seq 0 K)) /\
       (forall e st, sweep ins options fuel dev = Raised e st ->
          exists j, (j < K)%nat /\
            map Frequency (data st) =
            map (fun k => IZR (fstart options) * fstep options ^ k) (seq 0 j) /\
            sweep_step ins options st = inl e) /\
       (forall st, sweep ins options fuel dev = Running st ->
          (fuel <= K)%nat /\
          map Frequency (data st) =
          map (fun k => IZR (fstart options) * fstep options ^ k) (seq 0 fuel)) /\
       ((K < fuel)%nat -> terminated (sweep ins options fuel dev))) /\
    (delivers ins ->
     exists st, sweep ins options (S K) dev = Completed st /\
       map Frequency (data st) =
       map (fun k => IZR (fstart options) * fstep options ^ k) (seq 0 K)).
Proof.
  intros Hstart Hstop Hstep.
  destruct (geometric_reaches (IZR (fstart options)) (fstep options)
              (IZR (fstop options)) Hstart Hstep) as [K0 HK0].
  destruct (least_reach _ _ _ K0 HK0) as (K & HK & Hleast).
  assert (Hfacts : forall fuel,
    exists k,
      map Frequency (data (outcome_state (sweep ins options fuel dev))) =
        map (fun i => IZR (fstart options) * fstep options ^ i) (seq 0 k) /\
      (forall i, (i < k)%nat ->
         IZR (fstart options) * fstep options ^ i < IZR (fstop options)) /\
      match sweep ins options fuel dev with
      | Completed _ => k = K
      | Raised e s => (k < K)%nat /\ sweep_step ins options s = inl e
      | Running _ => k = fuel /\ (fuel <= K)%nat
      end).
  { intros fuel. unfold sweep.
    destruct (sweep_loop_count ins options fuel (initial options dev))
      as (k & Hle & Hmap & Hbelow & Hend).
    cbn [initial freq data map app] in *.
    exists k. split; [exact Hmap|]. split; [exact Hbelow|].
    destruct (sweep_loop ins options fuel (initial options dev)) as [st|e st|st].
    - destruct (Nat.lt_trichotomy k K) as [H|[H|H]]; [|exact H|].
      + specialize (Hleast k H). lra.
      + specialize (Hbelow K H). lra.
    - destruct Hend as [Hlt Hs]. split; [|exact Hs].
      destruct (Nat.lt_ge_cases k K) as [H|H]; [exact H|].
      destruct (Nat.eq_dec k K) as [E|Hne]; [subst k; lra|].
      specialize (Hbelow K ltac:(lia)). lra.
    - split; [exact Hend|]. subst k.
      destruct (Nat.le_gt_cases fuel K) as [H|H]; [exact H|].
      specialize (Hbelow K H). lra. }
  exists K. split.
  { destruct K as [|K]; [simpl in HK; lra | lia]. }
  split; [exact Hleast|]. split; [exact HK|]. split.
  - intros fuel. destruct (Hfacts fuel) as (k & Hmap & Hbelow & Hend).
    rewrite Hmap. split; [apply geometric_ascending; assumption|]. split.
    { rewrite Forall_map, Forall_forall. intros i Hi. apply in_seq in Hi.
      apply Hbelow. lia. }
    destruct (sweep ins options fuel dev) as [st0|e0 st0|st0];
      cbn [outcome_state] in Hmap.
    + split; [|split; [|split]].
      * intros s0 [= <-]. rewrite Hmap, Hend. reflexivity.
      * intros e s0 Habs. discriminate Habs.
      * intros s0 Habs. discriminate Habs.
      * intros _. exact I.
    + destruct Hend as [Hk Hs]. split; [|split; [|split]].
      * intros s0 Habs. discriminate Habs.
      * intros e s0 [= <- <-]. exists k. auto.
      * intros s0 Habs. discriminate Habs.
      * intros _. exact I.
    + destruct Hend as [-> Hle]. split; [|split; [|split]].
      * intros s0 Habs. discriminate Habs.
      * intros e s0 Habs. discriminate Habs.
      * intros s0 [= <-]. split; [exact Hle | exact Hmap].
      * intros Hlt. lia.
  - intros Hgood. destruct (Hfacts (S K)) as (k & Hmap & _ & Hend).
    unfold sweep in *.
    destruct (sweep_loop ins options (S K) (initial options dev))
      as [st|e st|st] eqn:Hrun.
    + exists st. split; [reflexivity|]. cbn [outcome_state] in Hmap.
      rewrite Hmap, Hend. reflexivity.
    + exfalso. eapply delivering_loop_never_raises; eassumption.
    + destruct Hend as [_ Hle]. lia.
Qed.

Lemma sweep_frequencies_geometric_witness :
  exists st,
    sweep (bench None) (mkOptions 100 1000 2 "bodeplot.csv") 5 0%nat =
      Completed st /\
    map Frequency (data st) = map (fun k => 100 * 2 ^ k) (seq 0 4).
Proof.
  destruct (sweep_frequencies_geometric (bench None)
              (mkOptions 100 1000 2 "bodeplot.csv") 0%nat)
    as (K & _ & Hleast & HK & _ & Hrun); [cbn; lra | cbn; lra | cbn; lra |].
  cbn [fstart fstop fstep] in *.
  assert (E : K = 4%nat).
  { destruct K as [|[|[|[|[|K]]]]].
    - simpl in HK. lra.
    - simpl in HK. lra.
    - simpl in HK. lra.
    - simpl in HK. lra.
    - reflexivity.
    - specialize (Hleast 4%nat ltac:(lia)). simpl in Hleast. lra. }
  subst K. apply Hrun, bench_delivers.
Defined.

(** ** C3: the RMS formula *)

(** C3.  On a non-empty capture the loop of lines 160-167 returns
    [sqrt(mean(v^2)) - mean(v)]; this is the standard AC RMS
    [sqrt(mean((v - mean(v))^2))] only when the mean is zero or the result is
    zero. *)
Theorem rms_is_raw_rms_minus_mean (v : list R) :
  v <> [] ->
  rms_minus_dc v = inr (raw_rms_minus_mean v) /\
  (rms_minus_dc v = inr (ac_rms v) <->
   mean v = 0 \/ raw_rms_minus_mean v = 0).
Proof.
  intros Hv. rewrite rms_minus_dc_nonempty by exact Hv.
  split; [reflexivity|].
  rewrite <- (raw_eq_ac_iff v Hv).
  split; [intros [= E]; exact E | intros ->; reflexivity].
Qed.

Lemma rms_is_raw_rms_minus_mean_witness :
  rms_minus_dc [0; 2] = inr (raw_rms_minus_mean [0; 2]) /\
  rms_minus_dc [0; 2] <> inr (ac_rms [0; 2]).
Proof.
  destruct (rms_is_raw_rms_minus_mean [0; 2]) as [H1 H2]; [discriminate|].
  split; [exact H1|]. intros E. apply H2 in E.
  assert (Hm : mean [0; 2] = 1).
  { unfold mean, list_sum_R. simpl. lra. }
  assert (Hq : mean (map (fun x => x * x) [0; 2]) = 2).
  { unfold mean, list_sum_R. simpl. lra. }
  destruct E as [E|E]; [lra|].
  unfold raw_rms_minus_mean in E. rewrite Hm, Hq in E.
  pose proof (sqrt_sqrt 2) as Hs. nra.
Defined.

(** ** C4: the phase difference *)

(** C4, counterexample.  The phases 0 and [PI] both lie in the half-open
    interval; their difference [- PI] passes both tests of lines 217-220
    unchanged and is outside the interval. *)
Lemma phase_difference_reaches_minus_PI :
  (- PI < 0 <= PI) /\ (- PI < PI <= PI) /\
  ~ (- PI < phase_difference 0 PI <= PI).
Proof.
  pose proof PI_RGT_0 as Hpi.
  split; [lra|]. split; [lra|].
  unfold phase_difference.
  destruct (wrap_deltaphase_cases (0 - PI)) as [[H E]|[[H E]|[H E]]];
    rewrite E; lra.
Qed.

(** C4, amended.  For phases in the half-open interval from [- PI] to [PI]
    the wrapped difference lies in the closed interval from [- PI] to [PI],
    and it is [- PI] exactly when the raw difference is [- PI]. *)
Theorem phase_difference_range (phase1 phase2 : R) :
  - PI < phase1 <= PI ->
  - PI < phase2 <= PI ->
  - PI <= phase_difference phase1 phase2 <= PI /\
  (phase_difference phase1 phase2 = - PI <-> phase1 - phase2 = - PI).
Proof.
  intros H1 H2. apply wrap_deltaphase_range. lra.
Qed.

Lemma phase_difference_range_witness :
  - PI <= phase_difference PI (- (PI / 2)) <= PI.
Proof.
  pose proof PI_RGT_0 as Hpi.
  apply (phase_difference_range PI (- (PI / 2))); lra.
Defined.

(** ** C5: the recorded RMS values *)

(** C5, counterexample.  In the binary64 arithmetic of the script a capture
    of 20 * 1024 samples that are all 0.3 (the float nearest to it) gets the
    RMS value -1.6e-13, and five samples of 0.11 get -1.4e-17: the square
    root and the mean are rounded separately before they are subtracted. *)
Lemma rms_negative_in_binary64 :
  match rms_minus_dc64 (repeat 0x1.3333333333333p-2%float (blocks * 1024)) with
  | inr r => PrimFloat.ltb r PrimFloat.zero
  | inl _ => false
  end = true /\
  match rms_minus_dc64 (repeat 0x1.c28f5c28f5c29p-4%float 5) with
  | inr r => PrimFloat.ltb r PrimFloat.zero
  | inl _ => false
  end = true.
Proof. split; vm_compute; reflexivity. Qed.

(** C5, amended.  In exact arithmetic the value [sqrt(mean(v^2)) - mean(v)]
    that lines 160-177 compute is not negative, and it is zero exactly on the
    constant captures that are not negative.  (There the rounded value can
    fall below zero; the stored RMS values are not guaranteed to be
    non-negative.) *)
Theorem rms_exact_nonneg (v : list R) (r : R) :
  rms_minus_dc v = inr r ->
  0 <= r /\ (r = 0 <-> exists c, 0 <= c /\ v = repeat c (length v)).
Proof.
  intros Hr. apply rms_minus_dc_ok in Hr as [Hv ->].
  split.
  - apply raw_rms_minus_mean_nonneg, Hv.
  - apply raw_rms_minus_mean_zero_iff, Hv.
Qed.

Lemma rms_exact_nonneg_witness :
  0 <= raw_rms_minus_mean [0; 2].
Proof.
  apply (rms_exact_nonneg [0; 2] (raw_rms_minus_mean [0; 2])).
  apply rms_minus_dc_nonempty. discriminate.
Defined.

(** ** C6: the fundamental *)

(** A capture of fewer than four samples has no bin between 1 and [N // 2]:
    the search for the fundamental raises. *)
Lemma fundamental_short v samplerate :
  (length v < 4)%nat -> exists e, fundamental v samplerate = inl e.
Proof.
  intros Hlen. unfold fundamental. destruct v as [|x v'].
  - exists ValueError. reflexivity.
  - rewrite fft_fft_nonempty by discriminate. cbn [bind ret].
    rewrite fft_magnitude_bins, skipn_map, skipn_seq.
    assert (Hhalf : (length (x :: v') / 2 - 1 = 0)%nat).
    { assert (length (x :: v') / 2 < 2)%nat; [|lia].
      apply Nat.Div0.div_lt_upper_bound. lia. }
    rewrite Hhalf. exists ValueError. reflexivity.
Qed.

(** C6.  On a capture of [N >= 4] samples the fundamental is found at a bin
    [i] with [1 <= i < N // 2] whose magnitude, normalized by [N], is maximal
    among the bins [1 .. N // 2 - 1] (the first such bin), and the recorded
    magnitude and phase are those of bin [i]. *)
Theorem fundamental_is_peak_bin (v : list R) (samplerate : Z) :
  (4 <= length v)%nat ->
  exists f,
    fundamental v samplerate = inr f /\
    (1 <= fundamental_index f < length v / 2)%nat /\
    (forall j, (1 <= j < length v / 2)%nat ->
       bin_magnitude v j <= bin_magnitude v (fundamental_index f)) /\
    (forall j, (1 <= j < fundamental_index f)%nat ->
       bin_magnitude v j < bin_magnitude v (fundamental_index f)) /\
    fundamental_magnitude f = bin_magnitude v (fundamental_index f) /\
    fundamental_phase f = bin_phase v (fundamental_index f).
Proof.
  intros Hlen.
  destruct (fundamental_spec v samplerate Hlen) as (i & Hf & Hi & Hmax & Hfirst).
  eexists. split; [exact Hf|]. cbn. auto.
Qed.

Lemma fundamental_is_peak_bin_witness :
  exists f,
    fundamental [1; 0; -1; 0] 20 = inr f /\ fundamental_index f = 1%nat.
Proof.
  destruct (fundamental_is_peak_bin [1; 0; -1; 0] 20) as (f & Hf & Hi & _);
    [simpl; lia|].
  exists f. split; [exact Hf|]. simpl in Hi. lia.
Defined.

(** ** C7: a reference channel without signal *)

(** C7.  When the RMS value of channel 2 is zero the analysis produces no row:
    it raises, and when both captures have at least four samples (so that
    nothing before line 223 raises) the exception is the [ZeroDivisionError]
    of [rms1/rms2]. *)
Theorem zero_reference_raises (f : R) (samplerate : Z) (v1 v2 : list R) :
  rms_minus_dc v2 = inr 0 ->
  (exists e, analyze f samplerate v1 v2 = inl e) /\
  ((4 <= length v1)%nat -> (4 <= length v2)%nat ->
   analyze f samplerate v1 v2 = inl ZeroDivisionError).
Proof.
  intros Hz. split.
  - destruct (analyze f samplerate v1 v2) as [e|row] eqn:Hrow; [eauto|].
    apply analyze_inv in Hrow as (_ & _ & H2 & Hnz & _).
    rewrite Hz in H2. injection H2 as H2. congruence.
  - intros H1 H2. unfold analyze. rewrite Hz.
    rewrite rms_minus_dc_nonempty by (intros ->; simpl in *; lia).
    cbn [bind ret].
    destruct (fundamental_spec v1 samplerate H1) as (i1 & -> & _).
    destruct (fundamental_spec v2 samplerate H2) as (i2 & -> & _).
    cbn [bind ret]. rewrite div_zero. reflexivity.
Qed.

Lemma zero_reference_raises_witness :
  analyze 30 20 [1; -1; 1; -1] [1; 1; 1; 1] = inl ZeroDivisionError.
Proof.
  apply (zero_reference_raises 30 20 [1; -1; 1; -1] [1; 1; 1; 1]);
    [|simpl; lia|simpl; lia].
  rewrite rms_minus_dc_nonempty by discriminate. f_equal.
  unfold raw_rms_minus_mean, mean, list_sum_R. simpl.
  replace ((1 * 1 + (1 * 1 + (1 * 1 + (1 * 1 + 0)))) / (1 + 1 + 1 + 1)) with 1 by lra.
  rewrite sqrt_1. lra.
Defined.

(** ** C8: unchecked sweep bounds *)

(** C8, counterexample.  With a stop frequency below the start frequency
    lines 119-236 run without any exception: the loop body never runs and the
    CSV file is written with no row. *)
Lemma inverted_bounds_complete :
  main (bench None) (mkOptions 30 10 1.05 "bodeplot.csv") 1 0%nat =
  Some (mkProcess None (Some (csv_header, [])) true).
Proof.
  unfold main, sweep. rewrite sweep_loop_exit by (cbn; lra). reflexivity.
Qed.

(** C8, amended.  Nothing validates the bounds.  With a stop frequency not
    above the start frequency the loop runs no step and ends normally with an
    empty list of rows; with a positive start frequency below the stop
    frequency and a step between 0 and 1 the loop never ends by its condition
    (it runs until a step raises, if one does). *)
Theorem invalid_bounds_unchecked {D} (ins : Instrument D) (options : Options)
    (fuel : nat) (dev : D) :
  IZR (fstop options) <= IZR (fstart options) \/
  (0 < IZR (fstart options) /\ 0 <= fstep options <= 1) ->
  (IZR (fstop options) <= IZR (fstart options) ->
   sweep ins options (S fuel) dev = Completed (initial options dev)) /\
  (IZR (fstart options) < IZR (fstop options) ->
   forall st, sweep ins options fuel dev <> Completed st).
Proof.
  intros Hbad. split.
  - intros Hle. unfold sweep. apply sweep_loop_exit. exact Hle.
  - intros Hlt st. destruct Hbad as [Hle|[Hstart Hstep]]; [lra|].
    unfold sweep. apply sweep_loop_never_completes; [exact Hstep|].
    cbn [initial freq]. lra.
Qed.

Lemma invalid_bounds_unchecked_witness :
  sweep (bench None) (mkOptions 30 10 1.05 "bodeplot.csv") 1 0%nat =
  Completed (initial (mkOptions 30 10 1.05 "bodeplot.csv") 0%nat).
Proof.
  apply (invalid_bounds_unchecked (bench None)
           (mkOptions 30 10 1.05 "bodeplot.csv") 0 0%nat).
  - left. cbn. lra.
  - cbn. lra.
Defined.

(** A step of one half never carries 30 Hz to 15 kHz. *)
Example halving_never_completes :
  forall fuel st,
    sweep (bench None) (mkOptions 30 15000 0.5 "bodeplot.csv") fuel 0%nat <>
    Completed st.
Proof.
  intros fuel st. unfold sweep.
  apply sweep_loop_never_completes; cbn; lra.
Qed.

(** ** C9: termination *)



(** ** C10: a failing step *)

(** C10, counterexample.  The scope delivers one capture and fails on the
    second: the loop stops there with one row recorded, the exception ends the
    process, and the CSV file is never written. *)
Lemma partial_rows_lost :
  exists e st row,
    sweep (bench (Some 1%nat)) (mkOptions 30 15000 1.05 "bodeplot.csv") 2 0%nat =
      Raised e st /\
    data st = [row] /\
    main (bench (Some 1%nat)) (mkOptions 30 15000 1.05 "bodeplot.csv") 2 0%nat =
      Some (mkProcess (Some e) None false).
Proof.
  set (options := mkOptions 30 15000 1.05 "bodeplot.csv").
  assert (Hrun : exists row,
    sweep (bench (Some 1%nat)) options 2 0%nat =
      Raised (ScopeError (-7)) (mkState (30 * 1.05) [row] 1%nat)).
  { unfold sweep, initial. cbn [fstart options].
    destruct (bench_step (Some 1%nat) options (mkState 30 [] 0%nat))
      as (row & _ & Hs); [cbn; lia|].
    rewrite (sweep_loop_enter _ _ _ _ _ Hs) by (cbn; lra).
    cbn [freq data device app fstep options].
    rewrite (sweep_loop_raise _ _ _ _ (ScopeError (-7))).
    - exists row. reflexivity.
    - apply bench_step_fails. cbn. lia.
    - cbn. lra. }
  destruct Hrun as [row Hrun].
  exists (ScopeError (-7)), (mkState (30 * 1.05) [row] 1%nat), row.
  split; [exact Hrun|]. split; [reflexivity|].
  unfold main. rewrite Hrun. reflexivity.
Qed.

(** C10, amended.  When a step raises, the loop stops at that step (more fuel
    changes nothing), the exception ends the process, and the rows recorded
    before that step are not written: no CSV file is produced and the scope
    handle is not closed. *)
Theorem failing_step_aborts {D} (ins : Instrument D) (options : Options)
    (fuel : nat) (dev : D) (e : exn) (st : State D) :
  sweep ins options fuel dev = Raised e st ->
  sweep_step ins options st = inl e /\
  (forall n, sweep ins options (fuel + n) dev = Raised e st) /\
  main ins options fuel dev = Some (mkProcess (Some e) None false).
Proof.
  intros Hraise. split; [|split].
  - unfold sweep in Hraise. revert Hraise.
    generalize (initial options dev). induction fuel as [|fuel IH]; intros s; simpl.
    + discriminate.
    + destruct (Rlt_dec (freq s) (IZR (fstop options))); [|discriminate].
      destruct (sweep_step ins options s) as [e'|s'] eqn:Hs.
      * intros [= <- <-]. exact Hs.
      * apply IH.
  - intros n. unfold sweep in *. rewrite sweep_loop_fuel; [exact Hraise|].
    rewrite Hraise. exact I.
  - unfold main. rewrite Hraise. reflexivity.
Qed.

Lemma failing_step_aborts_witness :
  exists e,
    main (bench (Some 0%nat)) (mkOptions 30 15000 1.05 "bodeplot.csv") 1 0%nat =
    Some (mkProcess (Some e) None false).
Proof.
  exists (ScopeError (-7)).
  apply (failing_step_aborts (bench (Some 0%nat))
           (mkOptions 30 15000 1.05 "bodeplot.csv") 1 0%nat (ScopeError (-7))
           (mkState 30 [] 0%nat)).
  unfold sweep, initial. cbn [fstart].
  apply sweep_loop_raise; [|cbn; lra].
  apply bench_step_fails. cbn. lia.
Defined.

(** * Further properties of the code *)

(** ** Sample rate and rate identifier (lines 127-137) *)

Lemma select_samplerate_facts f :
  In (select_samplerate f) samplerates /\
  (forall x, In x samplerates -> 4 * f <= IZR x ->
     4 * f <= IZR (select_samplerate f) /\ (select_samplerate f <= x)%Z) /\
  ((forall x, In x samplerates -> IZR x < 4 * f) ->
     select_samplerate f = 10000%Z).
Proof.
  unfold select_samplerate.
  pose proof samplerates_ascending as Hs. unfold samplerates in *.
  rewrite select_from_cons.
  destruct (scan_ascending (4 * f) _ _ Hs) as (Hin & Hfirst & Hlast).
  split; [exact Hin|]. split; [exact Hfirst|].
  intros Hall. rewrite (Hlast Hall). reflexivity.
Qed.

Lemma samplerates_le_10000 x : In x samplerates -> (20 <= x <= 10000)%Z.
Proof. unfold samplerates. simpl. intuition lia. Qed.

(** A higher frequency is never measured at a lower sample rate. *)
Theorem select_samplerate_monotone (f1 f2 : R) :
  f1 <= f2 -> (select_samplerate f1 <= select_samplerate f2)%Z.
Proof.
  intros Hle.
  destruct (select_samplerate_facts f1) as (Hin1 & Hfirst1 & _).
  destruct (select_samplerate_facts f2) as (Hin2 & Hfirst2 & Hlast2).
  destruct (Rle_lt_dec (4 * f2) (IZR (select_samplerate f2))) as [Hge|Hlt].
  - apply (Hfirst1 _ Hin2). lra.
  - rewrite Hlast2.
    + apply samplerates_le_10000, Hin1.
    + intros x Hx. destruct (Rle_lt_dec (4 * f2) (IZR x)) as [Hx2|Hx2]; [|exact Hx2].
      destruct (Hfirst2 x Hx Hx2) as [H _]. lra.
Qed.

Lemma select_samplerate_monotone_witness :
  (select_samplerate 10 <= select_samplerate 20)%Z.
Proof. apply (select_samplerate_monotone 10 20). lra. Defined.

(** Between 5 Hz and 2500 Hz the selected rate is at least 4 and less than 10
    times the frequency. *)
Theorem select_samplerate_oversampling (f : R) :
  5 < f -> f <= 2500 ->
  4 * f <= IZR (select_samplerate f) < 10 * f.
Proof.
  intros Hlo Hhi.
  destruct (select_samplerate_facts f) as (Hin & Hfirst & _).
  destruct (Hfirst 10000%Z) as [Hge _]; [unfold samplerates; simpl; tauto | lra |].
  split; [exact Hge|].
  assert (Hprev : forall p, In p samplerates -> (p < select_samplerate f)%Z ->
                            IZR p < 4 * f).
  { intros p Hp Hpr. destruct (Rle_lt_dec (4 * f) (IZR p)) as [H|H]; [|exact H].
    destruct (Hfirst p Hp H) as [_ H']. lia. }
  unfold samplerates in Hin, Hprev. simpl in Hin.
  destruct Hin as [E|[E|[E|[E|[E|[E|[E|[E|[E|[E|[E|[E|[E|[]]]]]]]]]]]]]];
    rewrite <- E in *.
  - lra.
  - specialize (Hprev 20%Z ltac:(simpl; tauto) ltac:(lia)). lra.
  - specialize (Hprev 32%Z ltac:(simpl; tauto) ltac:(lia)). lra.
  - specialize (Hprev 50%Z ltac:(simpl; tauto) ltac:(lia)). lra.
  - specialize (Hprev 64%Z ltac:(simpl; tauto) ltac:(lia)). lra.
  - specialize (Hprev 100%Z ltac:(simpl; tauto) ltac:(lia)). lra.
  - specialize (Hprev 128%Z ltac:(simpl; tauto) ltac:(lia)). lra.
  - specialize (Hprev 200%Z ltac:(simpl; tauto) ltac:(lia)). lra.
  - specialize (Hprev 500%Z ltac:(simpl; tauto) ltac:(lia)). lra.
  - specialize (Hprev 1000%Z ltac:(simpl; tauto) ltac:(lia)). lra.
  - specialize (Hprev 2000%Z ltac:(simpl; tauto) ltac:(lia)). lra.
  - specialize (Hprev 4000%Z ltac:(simpl; tauto) ltac:(lia)). lra.
  - specialize (Hprev 8000%Z ltac:(simpl; tauto) ltac:(lia)). lra.
Qed.

Lemma select_samplerate_oversampling_witness :
  4 * 10 <= IZR (select_samplerate 10) < 10 * 10.
Proof. apply (select_samplerate_oversampling 10); lra. Defined.

(** Above 2500 Hz the scope runs at its highest rate, which no longer gives
    four samples per period. *)
Theorem select_samplerate_saturates (f : R) :
  2500 < f ->
  select_samplerate f = 10000%Z /\ IZR (select_samplerate f) < 4 * f.
Proof.
  intros Hf. destruct (select_samplerate_facts f) as (_ & _ & Hlast).
  rewrite Hlast; [split; [reflexivity | lra]|].
  intros x Hx. apply samplerates_le_10000 in Hx.
  assert (IZR x <= 10000) by (apply IZR_le; lia). lra.
Qed.

Lemma select_samplerate_saturates_witness :
  select_samplerate 15000 = 10000%Z /\ IZR (select_samplerate 15000) < 4 * 15000.
Proof. apply (select_samplerate_saturates 15000). lra. Defined.

(** The identifier sent to the scope: 102 to 150 for a rate below 1000, the
    rate in thousands otherwise. *)
Theorem sample_id_of_selected (f : R) :
  ((select_samplerate f < 1000)%Z /\
   (102 <= sample_id_of (select_samplerate f) <= 150)%Z) \/
  (select_samplerate f = 1000 * sample_id_of (select_samplerate f))%Z.
Proof.
  destruct (select_samplerate_facts f) as (Hin & _).
  unfold samplerates in Hin. simpl in Hin.
  destruct Hin as [E|[E|[E|[E|[E|[E|[E|[E|[E|[E|[E|[E|[E|[]]]]]]]]]]]]]];
    rewrite <- E; vm_compute; intuition congruence.
Qed.

(** Two frequencies that get the same identifier get the same rate. *)
Theorem sample_id_identifies_rate (f1 f2 : R) :
  sample_id_of (select_samplerate f1) = sample_id_of (select_samplerate f2) ->
  select_samplerate f1 = select_samplerate f2.
Proof.
  destruct (select_samplerate_facts f1) as (Hin1 & _).
  destruct (select_samplerate_facts f2) as (Hin2 & _).
  revert Hin1 Hin2.
  generalize (select_samplerate f1) (select_samplerate f2).
  intros a b Ha Hb. unfold samplerates in Ha, Hb. simpl in Ha, Hb.
  destruct Ha as [E|[E|[E|[E|[E|[E|[E|[E|[E|[E|[E|[E|[E|[]]]]]]]]]]]]]];
  destruct Hb as [E'|[E'|[E'|[E'|[E'|[E'|[E'|[E'|[E'|[E'|[E'|[E'|[E'|[]]]]]]]]]]]]]];
    rewrite <- E, <- E'; vm_compute; congruence.
Qed.

Ltac run_select :=
  unfold select_samplerate, samplerates; rewrite select_from_cons;
  simpl fold_left;
  repeat match goal with
  | |- context [samplerate_step ?t (Zpos ?c) ?sr] =>
      first [ rewrite (samplerate_step_lt t (Zpos c) sr) by lra
            | rewrite (samplerate_step_ge t (Zpos c) sr) by lra ]
  end.

Example select_samplerate_12 : select_samplerate 12 = 50%Z.
Proof. run_select. reflexivity. Qed.

Lemma sample_id_identifies_rate_witness :
  select_samplerate 10 = select_samplerate 12.
Proof.
  apply (sample_id_identifies_rate 10 12).
  rewrite select_samplerate_10, select_samplerate_12. reflexivity.
Defined.

(** ** RMS value (lines 159-177) *)

Lemma list_sum_R_scale k l :
  list_sum_R (map (Rmult k) l) = k * list_sum_R l.
Proof.
  induction l as [|x l IH]; unfold list_sum_R in *; simpl; [ring|].
  rewrite IH. ring.
Qed.

Lemma list_sum_R_squares_scale k l :
  list_sum_R (map (fun x => x * x) (map (Rmult k) l)) =
  k * k * list_sum_R (map (fun x => x * x) l).
Proof.
  induction l as [|x l IH]; unfold list_sum_R in *; simpl; [ring|].
  rewrite IH. ring.
Qed.

Lemma mean_scale k l : mean (map (Rmult k) l) = k * mean l.
Proof.
  unfold mean. rewrite list_sum_R_scale, length_map. unfold Rdiv. ring.
Qed.

Lemma mean_squares_scale k l :
  mean (map (fun x => x * x) (map (Rmult k) l)) =
  k * k * mean (map (fun x => x * x) l).
Proof.
  unfold mean. rewrite list_sum_R_squares_scale, !length_map. unfold Rdiv. ring.
Qed.

(** A capture that is constant at [c] has the RMS value [|c| - c]: zero for a
    DC level that is not negative, twice its magnitude for a negative one. *)
Theorem rms_of_constant (c : R) (n : nat) :
  (0 < n)%nat ->
  rms_minus_dc (repeat c n) = inr (Rabs c - c).
Proof.
  intros Hn.
  assert (Hne : repeat c n <> []) by (destruct n; [lia | discriminate]).
  rewrite rms_minus_dc_nonempty by exact Hne. f_equal.
  assert (HN : INR n <> 0) by (apply not_0_INR; lia).
  unfold raw_rms_minus_mean, mean.
  rewrite map_repeat, !list_sum_R_repeat, !repeat_length.
  replace (INR n * (c * c) / INR n) with (Rsqr c) by (unfold Rsqr; field; exact HN).
  replace (INR n * c / INR n) with c by (field; exact HN).
  rewrite sqrt_Rsqr_abs. reflexivity.
Qed.

Lemma rms_of_constant_witness :
  rms_minus_dc (repeat (-1) 4) = inr (Rabs (-1) - -1).
Proof. apply (rms_of_constant (-1) 4). lia. Defined.

(** With a mean that is not negative the reported RMS value is at most the AC
    RMS; with a mean that is not positive it is at least the AC RMS. *)
Theorem rms_against_ac_rms (v : list R) (r : R) :
  rms_minus_dc v = inr r ->
  (0 <= mean v -> r <= ac_rms v) /\ (mean v <= 0 -> ac_rms v <= r).
Proof.
  intros Hr. apply rms_minus_dc_ok in Hr as [Hv ->].
  rewrite ac_rms_variance by exact Hv.
  pose proof (variance_nonneg v Hv) as Hvar.
  pose proof (raw_rms_minus_mean_nonneg v Hv) as Hraw.
  pose proof (mean_squares_nonneg v) as Hq.
  pose proof (mean_le_sqrt_mean_squares v Hv) as Habs.
  unfold raw_rms_minus_mean in *.
  set (q := mean (map (fun x => x * x) v)) in *. set (m := mean v) in *.
  pose proof (sqrt_sqrt q Hq) as Hs. set (a := sqrt q) in *.
  pose proof (Rle_abs m) as Hm1. pose proof (Rle_abs (- m)) as Hm2.
  rewrite Rabs_Ropp in Hm2.
  rewrite <- (sqrt_square (a - m)) by exact Hraw.
  split; intros Hm; apply sqrt_le_1_alt; nra.
Qed.

Lemma rms_against_ac_rms_witness :
  raw_rms_minus_mean [0; 2] <= ac_rms [0; 2].
Proof.
  apply (rms_against_ac_rms [0; 2] (raw_rms_minus_mean [0; 2])).
  - apply rms_minus_dc_nonempty. discriminate.
  - unfold mean, list_sum_R. simpl. lra.
Defined.

Lemma raw_rms_scale k v :
  0 <= k -> raw_rms_minus_mean (map (Rmult k) v) = k * raw_rms_minus_mean v.
Proof.
  intros Hk. unfold raw_rms_minus_mean.
  rewrite mean_squares_scale, mean_scale.
  rewrite sqrt_mult; [| nra | apply mean_squares_nonneg].
  rewrite sqrt_square by exact Hk. ring.
Qed.

(** Scaling a capture by a factor that is not negative scales its RMS value
    by the same factor. *)
Theorem rms_scales (k : R) (v : list R) (r : R) :
  0 <= k ->
  rms_minus_dc v = inr r ->
  rms_minus_dc (map (Rmult k) v) = inr (k * r).
Proof.
  intros Hk Hr. apply rms_minus_dc_ok in Hr as [Hv ->].
  rewrite rms_minus_dc_nonempty by (destruct v; [congruence | discriminate]).
  f_equal. apply raw_rms_scale, Hk.
Qed.

Lemma rms_scales_witness :
  rms_minus_dc (map (Rmult 3) [0; 2]) = inr (3 * raw_rms_minus_mean [0; 2]).
Proof.
  apply (rms_scales 3 [0; 2]); [lra|].
  apply rms_minus_dc_nonempty. discriminate.
Defined.

(** ** The analysis of one step (lines 159-223) *)

Lemma fundamental_short_value v samplerate :
  (length v < 4)%nat -> fundamental v samplerate = inl ValueError.
Proof.
  intros Hlen. unfold fundamental. destruct v as [|x v']; [reflexivity|].
  rewrite fft_fft_nonempty by discriminate. cbn [bind ret].
  rewrite fft_magnitude_bins, skipn_map, skipn_seq.
  assert (Hhalf : (length (x :: v') / 2 - 1 = 0)%nat).
  { assert (length (x :: v') / 2 < 2)%nat; [|lia].
    apply Nat.Div0.div_lt_upper_bound. lia. }
  rewrite Hhalf. reflexivity.
Qed.

Lemma fundamental_ok_length v samplerate f :
  fundamental v samplerate = inr f -> (4 <= length v)%nat.
Proof.
  intros Hf. destruct (Nat.le_gt_cases 4 (length v)) as [H|H]; [exact H|].
  rewrite fundamental_short_value in Hf by exact H. discriminate.
Qed.

(** The analysis gives a row exactly when both captures have at least four
    samples and the RMS value of channel 2 is not zero. *)
Theorem analyze_succeeds_iff (f : R) (samplerate : Z) (v1 v2 : list R) :
  (exists row, analyze f samplerate v1 v2 = inr row) <->
  (4 <= length v1)%nat /\ (4 <= length v2)%nat /\ raw_rms_minus_mean v2 <> 0.
Proof.
  split.
  - intros [row Hrow].
    apply analyze_inv in Hrow as (_ & _ & H2 & Hnz & _ & f1 & f2 & Hf1 & Hf2 & _).
    apply fundamental_ok_length in Hf1, Hf2.
    apply rms_minus_dc_ok in H2 as [_ H2]. rewrite <- H2.
    auto.
  - intros (H1 & H2 & Hnz).
    destruct (analyze_ok f samplerate v1 v2 H1 H2 Hnz) as [p Hp]. eauto.
Qed.

(** A capture that is too short: an empty one is a [ZeroDivisionError] of the
    RMS computation, one of one to three samples a [ValueError] of
    [np.argmax]. *)
Theorem analyze_short_capture (f : R) (samplerate : Z) (v1 v2 : list R) :
  (length v1 < 4)%nat \/ (length v2 < 4)%nat ->
  analyze f samplerate v1 v2 =
  inl match v1, v2 with
      | [], _ | _, [] => ZeroDivisionError
      | _, _ => ValueError
      end.
Proof.
  intros Hshort. unfold analyze.
  destruct v1 as [|x1 v1']; [rewrite rms_minus_dc_empty; reflexivity|].
  rewrite (rms_minus_dc_nonempty (x1 :: v1')) by discriminate. cbn [bind ret].
  destruct v2 as [|x2 v2']; [rewrite rms_minus_dc_empty; reflexivity|].
  rewrite (rms_minus_dc_nonempty (x2 :: v2')) by discriminate. cbn [bind ret].
  destruct (Nat.le_gt_cases 4 (length (x1 :: v1'))) as [H1|H1].
  - destruct (fundamental_spec (x1 :: v1') samplerate H1) as (i & -> & _).
    cbn [bind ret]. rewrite fundamental_short_value by lia. reflexivity.
  - rewrite fundamental_short_value by exact H1. reflexivity.
Qed.

Lemma analyze_short_capture_witness :
  analyze 30 20 [1; 2; 3] [1; 2; 3; 4] = inl ValueError.
Proof. apply (analyze_short_capture 30 20 [1; 2; 3] [1; 2; 3; 4]). left. simpl. lia. Defined.

(** The frequency reported for the fundamental is that of its bin,
    [index * rate / N] with the rate in samples per second, and lies strictly
    between 0 and half the rate. *)
Theorem fundamental_frequency_range (v : list R) (samplerate : Z) (f : Fundamental) :
  (0 < samplerate)%Z ->
  fundamental v samplerate = inr f ->
  fundamental_frequency f =
    INR (fundamental_index f) * (IZR samplerate * 1000) / INR (length v) /\
  0 < fundamental_frequency f < IZR samplerate * 1000 / 2.
Proof.
  intros Hsr Hf. pose proof (fundamental_ok_length _ _ _ Hf) as Hlen.
  destruct (fundamental_spec v samplerate Hlen) as (i & Hi & Hrange & _).
  rewrite Hi in Hf. injection Hf as <-. cbn.
  assert (HN : 0 < INR (length v)) by (apply lt_0_INR; lia).
  assert (Hs : 0 < IZR samplerate) by (apply IZR_lt; exact Hsr).
  assert (Hi0 : 0 < INR i) by (apply lt_0_INR; lia).
  assert (Hi2 : 2 * INR i < INR (length v)).
  { replace 2 with (INR 2) by (simpl; lra). rewrite <- mult_INR.
    apply lt_INR. pose proof (Nat.Div0.mul_div_le (length v) 2). lia. }
  assert (E : INR i / (INR (length v) * (1 / IZR samplerate / 1000)) =
              INR i * (IZR samplerate * 1000) / INR (length v)) by (field; lra).
  rewrite E. split; [reflexivity|].
  split.
  - apply Rdiv_lt_0_compat; [nra | exact HN].
  - apply (Rmult_lt_reg_r (INR (length v))); [exact HN|].
    replace (INR i * (IZR samplerate * 1000) / INR (length v) * INR (length v))
      with (INR i * (IZR samplerate * 1000)) by (field; lra).
    nra.
Qed.

Lemma fundamental_frequency_range_witness :
  exists f,
    fundamental [1; 0; -1; 0] 20 = inr f /\
    0 < fundamental_frequency f < 20 * 1000 / 2.
Proof.
  destruct (fundamental_spec [1; 0; -1; 0] 20) as (i & Hi & _); [simpl; lia|].
  eexists. split; [exact Hi|].
  apply (fundamental_frequency_range [1; 0; -1; 0] 20 _ ltac:(lia) Hi).
Defined.

(** ** The recorded rows (lines 124-226) *)

Lemma analyze_row_sound f sr v1 v2 row :
  analyze f sr v1 v2 = inr row -> row_sound row.
Proof.
  intros Hrow.
  apply analyze_inv in Hrow as (_ & _ & _ & Hnz & Hg & f1 & f2 & Hf1 & Hf2 & Hp).
  split; [exact Hnz|]. split; [exact Hg|].
  rewrite Hp. apply fundamental_phase_range in Hf1, Hf2.
  pose proof PI_RGT_0. unfold phase_difference.
  apply wrap_deltaphase_range. lra.
Qed.

(** In every recorded row the channel 2 RMS value is not zero, the gain is
    the quotient of the two RMS values, and the phase difference lies
    between [- PI] and [PI]. *)
Theorem recorded_rows_sound {D} (ins : Instrument D) (options : Options)
    (fuel : nat) (dev : D) :
  Forall (fun row =>
            Ch2_RMS row <> 0 /\
            Gain row = Ch1_RMS row / Ch2_RMS row /\
            - PI <= Phase_Difference row <= PI)
    (data (outcome_state (sweep ins options fuel dev))).
Proof.
  unfold sweep. apply sweep_loop_rows; [|constructor].
  intros f sr v1 v2 row Hrow.
  apply (analyze_row_sound f sr v1 v2 row Hrow).
Qed.

(** ** A sweep on instruments that deliver *)

(** With instruments that deliver, a start frequency above 0 and a step above
    1, the run ends without exception: the scope handle is closed and the CSV
    file holds the header and one row per frequency [start * step ^ k] below
    the stop frequency. *)
Theorem delivering_run_completes {D} (ins : Instrument D) (options : Options)
    (dev : D) :
  delivers ins ->
  0 < IZR (fstart options) ->
  1 < fstep options ->
  exists fuel rows,
    main ins options fuel dev =
      Some (mkProcess None (Some (csv_header, rows)) true) /\
    map Frequency rows =
      map (fun k => IZR (fstart options) * fstep options ^ k) (seq 0 (length rows)) /\
    (forall k, (k < length rows)%nat ->
       IZR (fstart options) * fstep options ^ k < IZR (fstop options)) /\
    IZR (fstop options) <= IZR (fstart options) * fstep options ^ length rows.
Proof.
  intros Hgood Hstart Hstep.
  destruct (geometric_reaches (IZR (fstart options)) (fstep options)
              (IZR (fstop options)) Hstart Hstep) as [K HK].
  pose proof (sweep_loop_terminates ins options K (initial options dev) HK) as Ht.
  destruct (sweep_loop_frequencies ins options (S K) (initial options dev))
    as (k & _ & Hmap & Hbelow & Hdone).
  destruct (sweep_loop ins options (S K) (initial options dev)) as [st|e st|st] eqn:Hrun.
  - exists (S K), (data st). unfold main, sweep. rewrite Hrun.
    cbn [outcome_state initial freq data map app] in *.
    assert (Hlen : length (data st) = k).
    { rewrite <- (length_map Frequency), Hmap, length_map, length_seq. reflexivity. }
    rewrite Hlen. split; [reflexivity|]. split; [exact Hmap|].
    split; [exact Hbelow | apply (Hdone st); reflexivity].
  - exfalso. eapply delivering_loop_never_raises; eassumption.
  - destruct Ht.
Qed.

Lemma delivering_run_completes_witness :
  exists fuel rows,
    main (bench None) (mkOptions 30 15000 1.05 "bodeplot.csv") fuel 0%nat =
      Some (mkProcess None (Some (csv_header, rows)) true) /\
    15000 <= 30 * 1.05 ^ length rows.
Proof.
  destruct (delivering_run_completes (bench None)
              (mkOptions 30 15000 1.05 "bodeplot.csv") 0%nat)
    as (fuel & rows & Hmain & _ & _ & Hstop);
    [apply bench_delivers | cbn; lra | cbn; lra |].
  exists fuel, rows. split; [exact Hmain | exact Hstop].
Defined.

(** ** The plot arrays (lines 238-242) *)

(** A sweep whose stop frequency is not above its start frequency writes a
    CSV file with no row, closes the scope and then ends in the [IndexError]
    of [data_array[:,0]]. *)
Theorem empty_sweep_fails_at_plot {D} (ins : Instrument D) (options : Options)
    (fuel : nat) (dev : D) :
  IZR (fstop options) <= IZR (fstart options) ->
  script ins options (S fuel) dev =
  Some (mkProcess (Some IndexError) (Some (csv_header, [])) true).
Proof.
  intros Hle. unfold script, main, sweep.
  rewrite sweep_loop_exit by exact Hle. reflexivity.
Qed.

Lemma empty_sweep_fails_at_plot_witness :
  script (bench None) (mkOptions 30 10 1.05 "bodeplot.csv") 1 0%nat =
  Some (mkProcess (Some IndexError) (Some (csv_header, [])) true).
Proof.
  apply (empty_sweep_fails_at_plot (bench None)
           (mkOptions 30 10 1.05 "bodeplot.csv") 0 0%nat).
  cbn. lra.
Defined.

Lemma plot_data_ok l frequencies gains phase :
  plot_data l = inr (frequencies, gains, phase) ->
  l <> [] /\
  frequencies = map Frequency l /\
  gains = map Gain l /\
  phase = map (fun row => Phase_Difference row * 180 / PI) l.
Proof.
  destruct l as [|row rows]; [discriminate|].
  unfold plot_data. intros [= <- <- <-].
  split; [discriminate|]. repeat split.
Qed.

(** The arrays extracted from the rows of a sweep have one entry per row, and
    the phases, in degrees, lie between -180 and 180. *)
Theorem plot_data_of_sweep {D} (ins : Instrument D) (options : Options)
    (fuel : nat) (dev : D) (frequencies gains phase : list R) :
  plot_data (data (outcome_state (sweep ins options fuel dev))) =
    inr (frequencies, gains, phase) ->
  length frequencies = length (data (outcome_state (sweep ins options fuel dev))) /\
  length gains = length frequencies /\
  length phase = length frequencies /\
  Forall (fun p => -180 <= p <= 180) phase.
Proof.
  intros Hplot. apply plot_data_ok in Hplot as (_ & -> & -> & ->).
  assert (Hrows : Forall row_sound
                    (data (outcome_state (sweep ins options fuel dev)))).
  { unfold sweep. apply sweep_loop_rows; [|constructor].
    intros f sr v1 v2 row. apply analyze_row_sound. }
  rewrite !length_map. repeat split.
  rewrite Forall_map. eapply Forall_impl; [|exact Hrows].
  intros r (_ & _ & Hp). pose proof PI_RGT_0 as Hpi.
  assert (E : Phase_Difference r * 180 / PI = Phase_Difference r / PI * 180)
    by (field; lra).
  rewrite E.
  assert (-1 <= Phase_Difference r / PI <= 1).
  { split.
    - apply (Rmult_le_reg_r PI); [exact Hpi|].
      replace (Phase_Difference r / PI * PI) with (Phase_Difference r) by (field; lra).
      lra.
    - apply (Rmult_le_reg_r PI); [exact Hpi|].
      replace (Phase_Difference r / PI * PI) with (Phase_Difference r) by (field; lra).
      lra. }
  lra.
Qed.

Lemma plot_data_of_sweep_witness :
  Forall (fun p => -180 <= p <= 180)
    (map (fun row => Phase_Difference row * 180 / PI)
       (data (outcome_state
          (sweep (bench None) (mkOptions 100 1000 2 "bodeplot.csv") 5 0%nat)))).
Proof.
  apply (plot_data_of_sweep (bench None) (mkOptions 100 1000 2 "bodeplot.csv")
           5 0%nat
           (map Frequency (data (outcome_state
              (sweep (bench None) (mkOptions 100 1000 2 "bodeplot.csv") 5 0%nat))))
           (map Gain (data (outcome_state
              (sweep (bench None) (mkOptions 100 1000 2 "bodeplot.csv") 5 0%nat))))).
  destruct sweep_100_1000_2 as (st & -> & Hfreq). cbn [outcome_state].
  destruct (data st); [discriminate Hfreq | reflexivity].
Defined.

(** ** The analysis of a sinusoid *)

(** *** Finite sums *)

Lemma sum_upto_ext h1 h2 n :
  (forall j, (j < n)%nat -> h1 j = h2 j) -> sum_upto h1 n = sum_upto h2 n.
Proof.
  induction n as [|n IH]; intros H; simpl; [reflexivity|].
  rewrite IH by (intros j Hj; apply H; lia). rewrite H by lia. reflexivity.
Qed.

Lemma sum_upto_shift h n :
  sum_upto h (S n) = h 0%nat + sum_upto (fun j => h (S j)) n.
Proof.
  induction n as [|n IH]; [simpl; ring|].
  change (sum_upto h (S (S n))) with (sum_upto h (S n) + h (S n)).
  rewrite IH. simpl. ring.
Qed.

Lemma sum_upto_scale c h n :
  sum_upto (fun j => c * h j) n = c * sum_upto h n.
Proof. induction n as [|n IH]; simpl; [ring | rewrite IH; ring]. Qed.

Lemma sum_upto_plus h1 h2 n :
  sum_upto (fun j => h1 j + h2 j) n = sum_upto h1 n + sum_upto h2 n.
Proof. induction n as [|n IH]; simpl; [ring | rewrite IH; ring]. Qed.

Lemma sum_upto_minus h1 h2 n :
  sum_upto (fun j => h1 j - h2 j) n = sum_upto h1 n - sum_upto h2 n.
Proof. induction n as [|n IH]; simpl; [ring | rewrite IH; ring]. Qed.

Lemma sum_upto_const c n : sum_upto (fun _ => c) n = INR n * c.
Proof.
  induction n as [|n IH]; [simpl; ring|].
  rewrite S_INR. simpl sum_upto. rewrite IH. ring.
Qed.

Lemma sum_from_map_seq f g n : forall i,
  Np.sum_from f i (map g (seq i n)) =
  sum_upto (fun j => f (i + j)%nat (g (i + j)%nat)) n.
Proof.
  induction n as [|n IH]; intros i; [reflexivity|].
  rewrite sum_upto_shift. simpl Np.sum_from. rewrite IH, Nat.add_0_r.
  f_equal. apply sum_upto_ext. intros j _.
  replace (S i + j)%nat with (i + S j)%nat by lia. reflexivity.
Qed.

Lemma list_sum_R_map_seq g n : forall i,
  list_sum_R (map g (seq i n)) = sum_upto (fun j => g (i + j)%nat) n.
Proof.
  induction n as [|n IH]; intros i; [reflexivity|].
  rewrite sum_upto_shift. unfold list_sum_R in *. simpl. rewrite IH, Nat.add_0_r.
  f_equal. apply sum_upto_ext. intros j _.
  replace (S i + j)%nat with (i + S j)%nat by lia. reflexivity.
Qed.

(** *** Sums of a cosine and of a sine over whole periods *)

Lemma sin_diff x y : sin (x + y) - sin (x - y) = 2 * cos x * sin y.
Proof. rewrite sin_plus, sin_minus. ring. Qed.

Lemma cos_telescope theta phi n :
  2 * sin (theta / 2) * sum_upto (fun j => cos (INR j * theta + phi)) n =
  sin (INR n * theta + phi - theta / 2) - sin (phi - theta / 2).
Proof.
  induction n as [|n IH].
  - simpl. rewrite Rmult_0_l, Rplus_0_l. ring.
  - simpl sum_upto. rewrite Rmult_plus_distr_l, IH, S_INR.
    replace ((INR n + 1) * theta + phi - theta / 2)
      with (INR n * theta + phi + theta / 2) by field.
    pose proof (sin_diff (INR n * theta + phi) (theta / 2)) as Hd.
    lra.
Qed.

Lemma sin_period_neg x k : sin (x - 2 * INR k * PI) = sin x.
Proof.
  rewrite <- (sin_period (x - 2 * INR k * PI) k). f_equal. ring.
Qed.

(** A cosine sampled over a whole number [m] of periods, with a step that is
    not a multiple of the period, sums to zero. *)
Lemma cos_sum_zero theta phi n m :
  INR n * theta = 2 * INR m * PI \/ INR n * theta = - (2 * INR m * PI) ->
  sin (theta / 2) <> 0 ->
  sum_upto (fun j => cos (INR j * theta + phi)) n = 0.
Proof.
  intros Hper Hsin. pose proof (cos_telescope theta phi n) as Ht.
  assert (E : sin (INR n * theta + phi - theta / 2) = sin (phi - theta / 2)).
  { destruct Hper as [-> | ->].
    - rewrite <- (sin_period (phi - theta / 2) m). f_equal. ring.
    - rewrite <- (sin_period_neg (phi - theta / 2) m). f_equal. ring. }
  rewrite E, Rminus_diag in Ht.
  apply Rmult_integral in Ht as [Ht|Ht]; [|exact Ht].
  apply Rmult_integral in Ht as [Ht|Ht]; [lra | contradiction].
Qed.

Lemma sin_as_cos x : sin x = cos (x - PI / 2).
Proof. rewrite cos_minus, cos_PI2, sin_PI2. ring. Qed.

Lemma sin_sum_zero theta phi n m :
  INR n * theta = 2 * INR m * PI \/ INR n * theta = - (2 * INR m * PI) ->
  sin (theta / 2) <> 0 ->
  sum_upto (fun j => sin (INR j * theta + phi)) n = 0.
Proof.
  intros Hper Hsin.
  rewrite <- (cos_sum_zero theta (phi - PI / 2) n m Hper Hsin).
  apply sum_upto_ext. intros j _. rewrite sin_as_cos. f_equal. ring.
Qed.

(** *** The transform of a sinusoid *)

Lemma sinusoid_length A k0 phi N : length (sinusoid A k0 phi N) = N.
Proof. unfold sinusoid. rewrite length_map, length_seq. reflexivity. Qed.

Lemma cos_cos a b : cos a * cos b = (cos (a + b) + cos (a - b)) / 2.
Proof. rewrite cos_plus, cos_minus. field. Qed.

Lemma cos_sin a b : cos a * sin b = (sin (a + b) - sin (a - b)) / 2.
Proof. rewrite sin_diff. field. Qed.

(** Every bin of the transform of a sinusoid, as sums of a cosine and of a
    sine at the sum and at the difference of the two bin angles. *)
Lemma dft_bin_sinusoid A k0 phi N k :
  (0 < N)%nat ->
  Np.dft_bin (sinusoid A k0 phi N) k =
  (A / 2 *
     (sum_upto (fun j => cos (INR j * (bin_angle N k0 + bin_angle N k) + phi)) N +
      sum_upto (fun j => cos (INR j * (bin_angle N k0 - bin_angle N k) + phi)) N),
   - (A / 2) *
     (sum_upto (fun j => sin (INR j * (bin_angle N k0 + bin_angle N k) + phi)) N -
      sum_upto (fun j => sin (INR j * (bin_angle N k0 - bin_angle N k) + phi)) N)).
Proof.
  intros HN. assert (HN' : INR N <> 0) by (apply not_0_INR; lia).
  unfold Np.dft_bin. rewrite sinusoid_length. unfold sinusoid.
  rewrite !sum_from_map_seq.
  assert (Harg1 : forall j, 2 * PI * INR k0 * INR j / INR N + phi =
                            INR j * bin_angle N k0 + phi)
    by (intros j; unfold bin_angle; field; exact HN').
  assert (Harg2 : forall j, 2 * PI * INR k * INR j / INR N = INR j * bin_angle N k)
    by (intros j; unfold bin_angle; field; exact HN').
  f_equal.
  - rewrite <- sum_upto_plus, <- sum_upto_scale. apply sum_upto_ext.
    intros j _. cbn beta. change (0 + j)%nat with j.
    rewrite Harg1, Harg2, Rmult_assoc, cos_cos. 
    replace (INR j * bin_angle N k0 + phi + INR j * bin_angle N k)
      with (INR j * (bin_angle N k0 + bin_angle N k) + phi) by ring.
    replace (INR j * bin_angle N k0 + phi - INR j * bin_angle N k)
      with (INR j * (bin_angle N k0 - bin_angle N k) + phi) by ring.
    field.
  - rewrite <- sum_upto_minus, <- sum_upto_scale. apply sum_upto_ext.
    intros j _. cbn beta. change (0 + j)%nat with j.
    rewrite Harg1, Harg2, Rmult_assoc, cos_sin.
    replace (INR j * bin_angle N k0 + phi + INR j * bin_angle N k)
      with (INR j * (bin_angle N k0 + bin_angle N k) + phi) by ring.
    replace (INR j * bin_angle N k0 + phi - INR j * bin_angle N k)
      with (INR j * (bin_angle N k0 - bin_angle N k) + phi) by ring.
    field.
Qed.

Lemma sin_nonzero x : - PI < x < PI -> x <> 0 -> sin x <> 0.
Proof.
  intros [Hlo Hhi] Hx. destruct (Rtotal_order x 0) as [H|[H|H]].
  - pose proof (sin_lt_0_var x Hlo H). lra.
  - contradiction.
  - pose proof (sin_gt_0 x H Hhi). lra.
Qed.

Lemma half_bin_angle N m :
  (0 < N)%nat -> bin_angle N m / 2 = PI * (INR m / INR N).
Proof.
  intros HN. unfold bin_angle. field. apply not_0_INR. lia.
Qed.

Lemma fraction_bounds N m :
  (0 < m < N)%nat -> 0 < INR m / INR N < 1.
Proof.
  intros [Hm HN].
  assert (0 < INR m) by (apply lt_0_INR; lia).
  assert (INR m < INR N) by (apply lt_INR; lia).
  split.
  - apply Rdiv_lt_0_compat; lra.
  - apply (Rmult_lt_reg_r (INR N)); [lra|].
    replace (INR m / INR N * INR N) with (INR m) by (field; lra). lra.
Qed.

(** The sums at the sum of two bin angles vanish. *)
Lemma sum_angle_vanishes N k0 k phi :
  (0 < k0 + k < N)%nat ->
  sum_upto (fun j => cos (INR j * (bin_angle N k0 + bin_angle N k) + phi)) N = 0 /\
  sum_upto (fun j => sin (INR j * (bin_angle N k0 + bin_angle N k) + phi)) N = 0.
Proof.
  intros Hk. assert (HN : (0 < N)%nat) by lia.
  assert (HN' : INR N <> 0) by (apply not_0_INR; lia).
  assert (Hper : INR N * (bin_angle N k0 + bin_angle N k) = 2 * INR (k0 + k) * PI).
  { rewrite plus_INR. unfold bin_angle. field. exact HN'. }
  assert (Hsin : sin ((bin_angle N k0 + bin_angle N k) / 2) <> 0).
  { replace ((bin_angle N k0 + bin_angle N k) / 2) with (bin_angle N (k0 + k) / 2)
      by (unfold bin_angle; rewrite plus_INR; field; exact HN').
    rewrite half_bin_angle by exact HN.
    pose proof (fraction_bounds N (k0 + k) Hk) as [H0 H1].
    pose proof PI_RGT_0.
    apply sin_nonzero; [split; nra | nra]. }
  split.
  - apply (cos_sum_zero _ _ _ (k0 + k)); [left; exact Hper | exact Hsin].
  - apply (sin_sum_zero _ _ _ (k0 + k)); [left; exact Hper | exact Hsin].
Qed.

(** The sums at the difference of two distinct bin angles vanish. *)
Lemma difference_angle_vanishes N k0 k phi :
  (k0 < N)%nat -> (k < N)%nat -> k <> k0 ->
  sum_upto (fun j => cos (INR j * (bin_angle N k0 - bin_angle N k) + phi)) N = 0 /\
  sum_upto (fun j => sin (INR j * (bin_angle N k0 - bin_angle N k) + phi)) N = 0.
Proof.
  intros Hk0 Hk Hne. assert (HN : (0 < N)%nat) by lia.
  assert (HN' : INR N <> 0) by (apply not_0_INR; lia).
  pose proof PI_RGT_0 as Hpi.
  destruct (Nat.lt_ge_cases k k0) as [Hlt|Hge].
  - assert (Hper : INR N * (bin_angle N k0 - bin_angle N k) = 2 * INR (k0 - k) * PI).
    { rewrite minus_INR by lia. unfold bin_angle. field. exact HN'. }
    assert (Hsin : sin ((bin_angle N k0 - bin_angle N k) / 2) <> 0).
    { replace ((bin_angle N k0 - bin_angle N k) / 2) with (bin_angle N (k0 - k) / 2)
        by (unfold bin_angle; rewrite minus_INR by lia; field; exact HN').
      rewrite half_bin_angle by exact HN.
      pose proof (fraction_bounds N (k0 - k) ltac:(lia)) as [H0 H1].
      apply sin_nonzero; [split; nra | nra]. }
    split.
    + apply (cos_sum_zero _ _ _ (k0 - k)); [left; exact Hper | exact Hsin].
    + apply (sin_sum_zero _ _ _ (k0 - k)); [left; exact Hper | exact Hsin].
  - assert (Hper : INR N * (bin_angle N k0 - bin_angle N k) = - (2 * INR (k - k0) * PI)).
    { rewrite minus_INR by lia. unfold bin_angle. field. exact HN'. }
    assert (Hsin : sin ((bin_angle N k0 - bin_angle N k) / 2) <> 0).
    { replace ((bin_angle N k0 - bin_angle N k) / 2) with (- (bin_angle N (k - k0) / 2))
        by (unfold bin_angle; rewrite minus_INR by lia; field; exact HN').
      rewrite half_bin_angle by exact HN.
      pose proof (fraction_bounds N (k - k0) ltac:(lia)) as [H0 H1].
      apply sin_nonzero; [split; nra | nra]. }
    split.
    + apply (cos_sum_zero _ _ _ (k - k0)); [right; exact Hper | exact Hsin].
    + apply (sin_sum_zero _ _ _ (k - k0)); [right; exact Hper | exact Hsin].
Qed.

(** The bin of the sinusoid's own frequency. *)
Lemma dft_bin_sinusoid_peak A k0 phi N :
  (0 < k0)%nat -> (2 * k0 < N)%nat ->
  Np.dft_bin (sinusoid A k0 phi N) k0 =
  (A * INR N / 2 * cos phi, A * INR N / 2 * sin phi).
Proof.
  intros Hk0 HN. rewrite dft_bin_sinusoid by lia.
  destruct (sum_angle_vanishes N k0 k0 phi ltac:(lia)) as [-> ->].
  rewrite Rminus_diag.
  rewrite (sum_upto_ext _ (fun _ => cos phi))
    by (intros j _; f_equal; ring).
  rewrite (sum_upto_ext (fun j => sin _) (fun _ => sin phi))
    by (intros j _; f_equal; ring).
  rewrite !sum_upto_const. f_equal; field.
Qed.

(** Every other bin below the Nyquist bin is empty. *)
Lemma dft_bin_sinusoid_off A k0 phi N k :
  (0 < k0)%nat -> (2 * k0 < N)%nat -> (0 < k)%nat -> (2 * k < N)%nat -> k <> k0 ->
  Np.dft_bin (sinusoid A k0 phi N) k = (0, 0).
Proof.
  intros Hk0 HN Hk HkN Hne. rewrite dft_bin_sinusoid by lia.
  destruct (sum_angle_vanishes N k0 k phi ltac:(lia)) as [-> ->].
  destruct (difference_angle_vanishes N k0 k phi ltac:(lia) ltac:(lia) Hne) as [-> ->].
  f_equal; ring.
Qed.

(** *** Magnitude and phase of a complex number in polar form *)

Lemma cos2_sin2 x : cos x * cos x + sin x * sin x = 1.
Proof. pose proof (sin2_cos2 x) as H. unfold Rsqr in H. lra. Qed.

Lemma abs_polar r phi : 0 <= r -> Np.abs (r * cos phi, r * sin phi) = r.
Proof.
  intros Hr. unfold Np.abs. cbn [fst snd].
  replace (r * cos phi * (r * cos phi) + r * sin phi * (r * sin phi))
    with (r * r * (cos phi * cos phi + sin phi * sin phi)) by ring.
  rewrite cos2_sin2, Rmult_1_r. apply sqrt_square, Hr.
Qed.

Lemma tan_shift x : cos x <> 0 -> tan (x + PI) = tan x.
Proof.
  intros Hc. unfold tan. rewrite neg_sin, neg_cos. field. exact Hc.
Qed.

(** [np.angle] recovers the phase of [r * exp(i * phi)]. *)
Lemma angle_polar r phi :
  0 < r -> - PI < phi <= PI ->
  Np.angle (r * cos phi, r * sin phi) = phi.
Proof.
  intros Hr [Hlo Hhi]. pose proof PI_RGT_0 as Hpi. unfold Np.angle.
  assert (Htan : cos phi <> 0 -> r * sin phi / (r * cos phi) = tan phi).
  { intros Hc. unfold tan. field. split; [exact Hc | lra]. }
  destruct (Rtotal_order phi (- (PI / 2))) as [H1|[H1|H1]].
  - (* third quadrant *)
    assert (Hc : cos phi < 0).
    { rewrite <- cos_neg. apply cos_lt_0; lra. }
    assert (Hs : sin phi < 0) by (apply sin_lt_0_var; lra).
    destruct (Rlt_dec 0 (r * cos phi)); [nra|].
    destruct (Rlt_dec (r * cos phi) 0); [|nra].
    destruct (Rle_dec 0 (r * sin phi)); [nra|].
    rewrite Htan by lra. rewrite <- tan_shift by lra.
    rewrite atan_tan by lra. ring.
  - (* phi = - PI / 2 *)
    subst phi. rewrite cos_neg, sin_neg, cos_PI2, sin_PI2.
    repeat match goal with
    | |- context [Rlt_dec ?a ?b] => destruct (Rlt_dec a b); try lra
    end.
  - destruct (Rtotal_order phi (PI / 2)) as [H2|[H2|H2]].
    + (* right half plane *)
      assert (Hc : 0 < cos phi) by (apply cos_gt_0; lra).
      destruct (Rlt_dec 0 (r * cos phi)); [|nra].
      rewrite Htan by lra. apply atan_tan. lra.
    + (* phi = PI / 2 *)
      subst phi. rewrite cos_PI2, sin_PI2.
      repeat match goal with
      | |- context [Rlt_dec ?a ?b] => destruct (Rlt_dec a b); try lra
      end.
    + (* second quadrant *)
      assert (Hc : cos phi < 0) by (apply cos_lt_0; lra).
      assert (Hs : 0 <= sin phi) by (apply sin_ge_0; lra).
      destruct (Rlt_dec 0 (r * cos phi)); [nra|].
      destruct (Rlt_dec (r * cos phi) 0); [|nra].
      destruct (Rle_dec 0 (r * sin phi)); [|nra].
      rewrite Htan by lra.
      assert (Hc' : cos (phi - PI) <> 0).
      { pose proof (neg_cos (phi - PI)) as Hn.
        replace (phi - PI + PI) with phi in Hn by ring. lra. }
      replace (tan phi) with (tan (phi - PI)).
      * rewrite atan_tan by lra. ring.
      * rewrite <- (tan_shift (phi - PI) Hc'). f_equal. ring.
Qed.

(** *** The fundamental of a sinusoid *)

Lemma bin_magnitude_sinusoid_peak A k0 phi N :
  0 <= A -> (0 < k0)%nat -> (2 * k0 < N)%nat ->
  bin_magnitude (sinusoid A k0 phi N) k0 = A / 2.
Proof.
  intros HA Hk0 HN. unfold bin_magnitude.
  rewrite dft_bin_sinusoid_peak, sinusoid_length by assumption.
  assert (HN' : 0 < INR N) by (apply lt_0_INR; lia).
  rewrite abs_polar by nra. field. lra.
Qed.

Lemma bin_magnitude_sinusoid_off A k0 phi N k :
  (0 < k0)%nat -> (2 * k0 < N)%nat -> (0 < k)%nat -> (2 * k < N)%nat -> k <> k0 ->
  bin_magnitude (sinusoid A k0 phi N) k = 0.
Proof.
  intros Hk0 HN Hk HkN Hne. unfold bin_magnitude.
  rewrite dft_bin_sinusoid_off by assumption.
  unfold Np.abs. cbn [fst snd]. rewrite Rmult_0_l, Rplus_0_l, sqrt_0.
  unfold Rdiv. apply Rmult_0_l.
Qed.

Lemma bin_phase_sinusoid_peak A k0 phi N :
  0 < A -> - PI < phi <= PI -> (0 < k0)%nat -> (2 * k0 < N)%nat ->
  bin_phase (sinusoid A k0 phi N) k0 = phi.
Proof.
  intros HA Hphi Hk0 HN. unfold bin_phase.
  rewrite dft_bin_sinusoid_peak by assumption.
  assert (HN' : 0 < INR N) by (apply lt_0_INR; lia).
  apply angle_polar; [nra | exact Hphi].
Qed.

Lemma half_lt_double k N : (k < N / 2)%nat -> (2 * k < N)%nat.
Proof.
  intros Hk. pose proof (Nat.Div0.mul_div_le N 2). lia.
Qed.

Lemma sinusoid_fundamental (A : R) (k0 : nat) (phi : R) (N : nat)
    (samplerate : Z) :
  0 < A -> - PI < phi <= PI -> (1 <= k0 < N / 2)%nat ->
  fundamental (sinusoid A k0 phi N) samplerate =
  inr (mkFundamental k0
         (INR k0 / (INR N * (1 / IZR samplerate / 1000))) (A / 2) phi).
Proof.
  intros HA Hphi [Hk0 Hhalf]. pose proof (half_lt_double _ _ Hhalf) as H2k.
  assert (HN4 : (4 <= N)%nat).
  { destruct (Nat.lt_ge_cases N 4) as [Hlt|Hge]; [|exact Hge].
    pose proof (Nat.Div0.div_lt_upper_bound N 2 2 ltac:(lia)). lia. }
  destruct (fundamental_spec (sinusoid A k0 phi N) samplerate)
    as (i & Hf & Hi & Hmax & _); [rewrite sinusoid_length; exact HN4|].
  rewrite sinusoid_length in *.
  assert (Ei : i = k0).
  { destruct (Nat.eq_dec i k0) as [E|Hne]; [exact E|exfalso].
    specialize (Hmax k0 ltac:(lia)).
    rewrite bin_magnitude_sinusoid_peak in Hmax by (try lra; lia).
    rewrite bin_magnitude_sinusoid_off in Hmax
      by (try exact Hne; try apply half_lt_double; lia).
    lra. }
  subst i. rewrite Hf. f_equal.
  rewrite bin_magnitude_sinusoid_peak by (try lra; lia).
  rewrite bin_phase_sinusoid_peak by (try assumption; lia).
  reflexivity.
Qed.

(** The fundamental found in [N] samples of a sinusoid of positive amplitude
    [A] with [k0] whole periods, [1 <= k0 < N // 2], at a positive sample
    rate: bin [k0], at the frequency [k0 * rate / N] of the sinusoid, with
    magnitude [A / 2] and the phase of the sinusoid. *)
Theorem fundamental_of_sinusoid (A : R) (k0 : nat) (phi : R) (N : nat)
    (samplerate : Z) :
  0 < A -> - PI < phi <= PI -> (1 <= k0 < N / 2)%nat -> (0 < samplerate)%Z ->
  exists f,
    fundamental (sinusoid A k0 phi N) samplerate = inr f /\
    fundamental_index f = k0 /\
    fundamental_frequency f = INR k0 * (IZR samplerate * 1000) / INR N /\
    fundamental_magnitude f = A / 2 /\
    fundamental_phase f = phi.
Proof.
  intros HA Hphi Hk Hsr.
  eexists. split; [apply sinusoid_fundamental; assumption|].
  cbn [fundamental_index fundamental_frequency fundamental_magnitude fundamental_phase].
  repeat split.
  assert (HN : 0 < INR N).
  { apply lt_0_INR. destruct Hk as [Hk0 Hhalf].
    pose proof (half_lt_double _ _ Hhalf). lia. }
  assert (Hs : 0 < IZR samplerate) by (apply IZR_lt; exact Hsr).
  field. lra.
Qed.

Lemma fundamental_of_sinusoid_witness :
  exists f,
    fundamental (sinusoid 3 2 (PI / 4) 16) 20 = inr f /\
    fundamental_index f = 2%nat /\
    fundamental_frequency f = INR 2 * (20 * 1000) / INR 16 /\
    fundamental_magnitude f = 3 / 2 /\
    fundamental_phase f = PI / 4.
Proof.
  pose proof PI_RGT_0.
  apply (fundamental_of_sinusoid 3 2 (PI / 4) 16 20);
    [lra | lra | split; [lia | apply Nat.div_le_lower_bound; lia] | lia].
Defined.

(** *** RMS value and analysis of sinusoids *)

Lemma bin_angle_0 N : bin_angle N 0 = 0.
Proof. unfold bin_angle. simpl INR. unfold Rdiv. ring. Qed.

Lemma sinusoid_sum A k0 phi N :
  (0 < k0 < N)%nat -> list_sum_R (sinusoid A k0 phi N) = 0.
Proof.
  intros Hk. assert (HN' : INR N <> 0) by (apply not_0_INR; lia).
  unfold sinusoid. rewrite list_sum_R_map_seq.
  rewrite (sum_upto_ext _
             (fun j => A * cos (INR j * (bin_angle N k0 + bin_angle N 0) + phi))).
  - rewrite sum_upto_scale.
    destruct (sum_angle_vanishes N k0 0 phi ltac:(lia)) as [-> _]. ring.
  - intros j _. change (0 + j)%nat with j. rewrite bin_angle_0. f_equal. f_equal.
    unfold bin_angle. field. exact HN'.
Qed.

Lemma sinusoid_sum_squares A k0 phi N :
  (0 < k0)%nat -> (2 * k0 < N)%nat ->
  list_sum_R (map (fun x => x * x) (sinusoid A k0 phi N)) = A * A / 2 * INR N.
Proof.
  intros Hk0 H2k. assert (HN' : INR N <> 0) by (apply not_0_INR; lia).
  unfold sinusoid. rewrite map_map, list_sum_R_map_seq.
  rewrite (sum_upto_ext _
             (fun j => A * A / 2 *
                       (1 + cos (INR j * (bin_angle N k0 + bin_angle N k0) + 2 * phi)))).
  - rewrite sum_upto_scale, sum_upto_plus, sum_upto_const.
    destruct (sum_angle_vanishes N k0 k0 (2 * phi) ltac:(lia)) as [-> _]. ring.
  - intros j _. change (0 + j)%nat with j.
    replace (INR j * (bin_angle N k0 + bin_angle N k0) + 2 * phi)
      with (2 * (2 * PI * INR k0 * INR j / INR N + phi))
      by (unfold bin_angle; field; exact HN').
    rewrite cos_2a_cos. field.
Qed.

Lemma sinusoid_nonempty A k0 phi N : (0 < N)%nat -> sinusoid A k0 phi N <> [].
Proof.
  intros HN E. pose proof (sinusoid_length A k0 phi N) as HL.
  rewrite E in HL. simpl in HL. lia.
Qed.

Lemma sinusoid_raw_rms (A : R) (k0 : nat) (phi : R) (N : nat) :
  0 <= A -> (1 <= k0 < N / 2)%nat ->
  raw_rms_minus_mean (sinusoid A k0 phi N) = A / sqrt 2.
Proof.
  intros HA [Hk0 Hhalf]. pose proof (half_lt_double _ _ Hhalf) as H2k.
  assert (HN : 0 < INR N) by (apply lt_0_INR; lia).
  unfold raw_rms_minus_mean, mean.
  rewrite sinusoid_sum_squares by lia. rewrite sinusoid_sum by lia.
  rewrite length_map, sinusoid_length.
  replace (A * A / 2 * INR N / INR N) with (A * A / 2) by (field; lra).
  rewrite sqrt_div by (try lra; nra). rewrite sqrt_square by exact HA.
  unfold Rdiv. ring.
Qed.

(** The RMS value reported for a sinusoid of amplitude [A] with a whole
    number of periods in the capture is [A / sqrt 2]. *)
Theorem rms_of_sinusoid (A : R) (k0 : nat) (phi : R) (N : nat) :
  0 <= A -> (1 <= k0 < N / 2)%nat ->
  rms_minus_dc (sinusoid A k0 phi N) = inr (A / sqrt 2).
Proof.
  intros HA Hk. rewrite rms_minus_dc_nonempty.
  - f_equal. apply sinusoid_raw_rms; assumption.
  - apply sinusoid_nonempty. destruct Hk as [Hk0 Hhalf].
    pose proof (half_lt_double _ _ Hhalf). lia.
Qed.

Lemma rms_of_sinusoid_witness :
  rms_minus_dc (sinusoid 3 2 (PI / 4) 16) = inr (3 / sqrt 2).
Proof.
  apply (rms_of_sinusoid 3 2 (PI / 4) 16);
    [lra | split; [lia | apply Nat.div_le_lower_bound; lia]].
Defined.

(** Two sinusoids of the same frequency, with positive amplitudes [A1] and
    [A2] and phases [phi1] and [phi2], are analysed to the gain [A1 / A2] and
    the wrapped phase difference of [phi1] and [phi2]. *)
Theorem analyze_of_sinusoids (f : R) (samplerate : Z) (A1 A2 : R) (k0 : nat)
    (phi1 phi2 : R) (N : nat) :
  0 < A1 -> 0 < A2 ->
  - PI < phi1 <= PI -> - PI < phi2 <= PI ->
  (1 <= k0 < N / 2)%nat ->
  analyze f samplerate (sinusoid A1 k0 phi1 N) (sinusoid A2 k0 phi2 N) =
  inr (mkRow f (A1 / sqrt 2) (A2 / sqrt 2) (A1 / A2)
         (phase_difference phi1 phi2)).
Proof.
  intros HA1 HA2 Hp1 Hp2 Hk. unfold analyze.
  assert (HN : (0 < N)%nat).
  { destruct Hk as [Hk0 Hhalf]. pose proof (half_lt_double _ _ Hhalf). lia. }
  rewrite !rms_minus_dc_nonempty by (apply sinusoid_nonempty; exact HN).
  rewrite !sinusoid_raw_rms by (try lra; exact Hk). cbn [bind ret].
  rewrite !sinusoid_fundamental by assumption. cbn [bind ret fundamental_phase].
  assert (Hs : 0 < sqrt 2) by (apply sqrt_lt_R0; lra).
  assert (Hd : 0 < A2 / sqrt 2) by (apply Rdiv_lt_0_compat; lra).
  rewrite div_ok by lra. cbn [bind ret].
  replace (A1 / sqrt 2 / (A2 / sqrt 2)) with (A1 / A2) by (field; lra).
  reflexivity.
Qed.

Lemma analyze_of_sinusoids_witness :
  analyze 100 20 (sinusoid 2 3 (PI / 4) 32) (sinusoid 1 3 0 32) =
  inr (mkRow 100 (2 / sqrt 2) (1 / sqrt 2) (2 / 1) (phase_difference (PI / 4) 0)).
Proof.
  pose proof PI_RGT_0.
  apply (analyze_of_sinusoids 100 20 2 1 3 (PI / 4) 0 32);
    [lra | lra | lra | lra | split; [lia | apply Nat.div_le_lower_bound; lia]].
Defined.

(** ** DC offset and scale of a capture (lines 179-213) *)

Lemma sum_from_const h v : forall i,
  Np.sum_from (fun n _ => h n) i v = sum_upto (fun j => h (i + j)%nat) (length v).
Proof.
  induction v as [|x v IH]; intros i; [reflexivity|].
  simpl length. rewrite sum_upto_shift. simpl Np.sum_from.
  rewrite IH, Nat.add_0_r. f_equal. apply sum_upto_ext. intros j _.
  replace (S i + j)%nat with (i + S j)%nat by lia. reflexivity.
Qed.

Lemma sum_from_ext f1 f2 v : forall i,
  (forall n x, f1 n x = f2 n x) -> Np.sum_from f1 i v = Np.sum_from f2 i v.
Proof.
  induction v as [|x v IH]; intros i H; [reflexivity|].
  simpl. rewrite H, (IH (S i) H). reflexivity.
Qed.

Lemma sum_from_offset (h : nat -> R) c v : forall i,
  Np.sum_from (fun n x => x * h n) i (map (Rplus c) v) =
  Np.sum_from (fun n x => x * h n) i v + c * Np.sum_from (fun n _ => h n) i v.
Proof.
  induction v as [|x v IH]; intros i; simpl; [ring|].
  rewrite IH. ring.
Qed.

Lemma sum_from_scale (f : nat -> R -> R) c v :
  (forall n x, f n (c * x) = c * f n x) ->
  forall i, Np.sum_from f i (map (Rmult c) v) = c * Np.sum_from f i v.
Proof.
  intros Hf. induction v as [|x v IH]; intros i; simpl; [ring|].
  rewrite IH, Hf. ring.
Qed.

Lemma sum_from_opp (f : nat -> R -> R) v : forall i,
  Np.sum_from (fun n x => - f n x) i v = - Np.sum_from f i v.
Proof.
  induction v as [|x v IH]; intros i; simpl; [ring|].
  rewrite IH. ring.
Qed.

(** A cosine and a sine at a bin angle sum to zero over the capture. *)
Lemma bin_angle_sums N k :
  (0 < k < N)%nat ->
  sum_upto (fun j => cos (2 * PI * INR k * INR j / INR N)) N = 0 /\
  sum_upto (fun j => sin (2 * PI * INR k * INR j / INR N)) N = 0.
Proof.
  intros Hk. assert (HN' : INR N <> 0) by (apply not_0_INR; lia).
  destruct (sum_angle_vanishes N k 0 0 ltac:(lia)) as [Hc Hs].
  split.
  - rewrite <- Hc. apply sum_upto_ext. intros j _. f_equal.
    rewrite bin_angle_0. unfold bin_angle. field. exact HN'.
  - rewrite <- Hs. apply sum_upto_ext. intros j _. f_equal.
    rewrite bin_angle_0. unfold bin_angle. field. exact HN'.
Qed.

(** A constant added to every sample changes no bin but bin 0. *)
Lemma dft_bin_offset c v k :
  (0 < k < length v)%nat ->
  Np.dft_bin (map (Rplus c) v) k = Np.dft_bin v k.
Proof.
  intros Hk. unfold Np.dft_bin. rewrite length_map.
  destruct (bin_angle_sums (length v) k Hk) as [Hc Hs].
  f_equal.
  - rewrite sum_from_offset, sum_from_const.
    change (fun j => cos (2 * PI * INR k * INR (0 + j) / INR (length v)))
      with (fun j => cos (2 * PI * INR k * INR j / INR (length v))).
    rewrite Hc. ring.
  - rewrite !sum_from_opp, sum_from_offset, sum_from_const.
    change (fun j => sin (2 * PI * INR k * INR (0 + j) / INR (length v)))
      with (fun j => sin (2 * PI * INR k * INR j / INR (length v))).
    rewrite Hs. ring.
Qed.

Lemma dft_bin_scale c v k :
  Np.dft_bin (map (Rmult c) v) k =
  (c * fst (Np.dft_bin v k), c * snd (Np.dft_bin v k)).
Proof.
  unfold Np.dft_bin. rewrite length_map. cbn [fst snd].
  f_equal; apply sum_from_scale; intros n x; ring.
Qed.

Lemma abs_scale c z : 0 <= c -> Np.abs (c * fst z, c * snd z) = c * Np.abs z.
Proof.
  intros Hc. unfold Np.abs. cbn [fst snd].
  replace (c * fst z * (c * fst z) + c * snd z * (c * snd z))
    with (c * c * (fst z * fst z + snd z * snd z)) by ring.
  rewrite sqrt_mult; [| nra | nra].
  rewrite sqrt_square by exact Hc. reflexivity.
Qed.

Lemma angle_scale c z : 0 < c -> Np.angle (c * fst z, c * snd z) = Np.angle z.
Proof.
  intros Hc. destruct z as [re im]. cbn [fst snd]. unfold Np.angle.
  destruct (Rlt_dec 0 re) as [H1|H1].
  - destruct (Rlt_dec 0 (c * re)); [|nra]. f_equal. field. lra.
  - destruct (Rlt_dec 0 (c * re)); [nra|].
    destruct (Rlt_dec re 0) as [H2|H2].
    + destruct (Rlt_dec (c * re) 0); [|nra].
      replace (c * im / (c * re)) with (im / re) by (field; lra).
      destruct (Rle_dec 0 im); destruct (Rle_dec 0 (c * im)); try nra; reflexivity.
    + destruct (Rlt_dec (c * re) 0); [nra|].
      destruct (Rlt_dec 0 im); destruct (Rlt_dec 0 (c * im)); try nra; try reflexivity.
      destruct (Rlt_dec im 0); destruct (Rlt_dec (c * im) 0); try nra; reflexivity.
Qed.

(** Two first maxima of the same values, up to a positive factor, are the
    same bin. *)
Lemma first_maximum_unique (g g' : nat -> R) (c : R) (M i i' : nat) :
  0 < c ->
  (forall j, (1 <= j < M)%nat -> g' j = c * g j) ->
  (1 <= i < M)%nat -> (1 <= i' < M)%nat ->
  (forall j, (1 <= j < M)%nat -> g j <= g i) ->
  (forall j, (1 <= j < i)%nat -> g j < g i) ->
  (forall j, (1 <= j < M)%nat -> g' j <= g' i') ->
  (forall j, (1 <= j < i')%nat -> g' j < g' i') ->
  i = i'.
Proof.
  intros Hc Hg Hi Hi' Hmax Hfirst Hmax' Hfirst'.
  destruct (Nat.lt_trichotomy i i') as [H|[H|H]]; [exfalso | exact H | exfalso].
  - specialize (Hfirst' i ltac:(lia)). specialize (Hmax i' Hi').
    rewrite !Hg in Hfirst' by lia. nra.
  - specialize (Hfirst i' ltac:(lia)). specialize (Hmax' i Hi).
    rewrite !Hg in Hmax' by lia. nra.
Qed.

(** The fundamental does not see a DC offset: a constant added to every
    sample changes nothing of what lines 179-195 return. *)
Theorem fundamental_ignores_offset (c : R) (v : list R) (samplerate : Z) :
  fundamental (map (Rplus c) v) samplerate = fundamental v samplerate.
Proof.
  destruct (Nat.lt_ge_cases (length v) 4) as [Hshort|Hlen].
  - rewrite !fundamental_short_value by (rewrite ?length_map; exact Hshort).
    reflexivity.
  - destruct (fundamental_spec v samplerate Hlen) as (i & Hf & Hi & Hmax & Hfirst).
    destruct (fundamental_spec (map (Rplus c) v) samplerate)
      as (i' & Hf' & Hi' & Hmax' & Hfirst'); [rewrite length_map; exact Hlen|].
    rewrite length_map in *.
    assert (Hbin : forall j, (1 <= j < length v / 2)%nat ->
                     Np.dft_bin (map (Rplus c) v) j = Np.dft_bin v j).
    { intros j Hj. apply dft_bin_offset. pose proof (half_le (length v)). lia. }
    assert (Hmag : forall j, (1 <= j < length v / 2)%nat ->
                     bin_magnitude (map (Rplus c) v) j = 1 * bin_magnitude v j).
    { intros j Hj. unfold bin_magnitude. rewrite Hbin, length_map by exact Hj. ring. }
    assert (E : i = i').
    { apply (first_maximum_unique (bin_magnitude v)
               (bin_magnitude (map (Rplus c) v)) 1 (length v / 2));
        try assumption; lra. }
    subst i'. rewrite Hf, Hf'. f_equal.
    rewrite Hmag by exact Hi. unfold bin_phase. rewrite Hbin by exact Hi.
    f_equal. ring.
Qed.

(** Scaling a capture by a positive factor scales the magnitude of the
    fundamental and leaves its bin, frequency and phase as they are. *)
Lemma fundamental_scale (c : R) (v : list R) (samplerate : Z) (f : Fundamental) :
  0 < c ->
  fundamental v samplerate = inr f ->
  fundamental (map (Rmult c) v) samplerate =
  inr (mkFundamental (fundamental_index f) (fundamental_frequency f)
         (c * fundamental_magnitude f) (fundamental_phase f)).
Proof.
  intros Hc Hfund. pose proof (fundamental_ok_length _ _ _ Hfund) as Hlen.
  destruct (fundamental_spec v samplerate Hlen) as (i & Hf & Hi & Hmax & Hfirst).
  destruct (fundamental_spec (map (Rmult c) v) samplerate)
    as (i' & Hf' & Hi' & Hmax' & Hfirst'); [rewrite length_map; exact Hlen|].
  rewrite length_map in *.
  assert (Hmag : forall j, bin_magnitude (map (Rmult c) v) j = c * bin_magnitude v j).
  { intros j. unfold bin_magnitude.
    rewrite dft_bin_scale, length_map, abs_scale by lra. unfold Rdiv. ring. }
  assert (E : i = i').
  { apply (first_maximum_unique (bin_magnitude v)
             (bin_magnitude (map (Rmult c) v)) c (length v / 2));
      try assumption. intros j _. apply Hmag. }
  subst i'. rewrite Hf in Hfund. injection Hfund as <-.
  rewrite Hf'.
  cbn [fundamental_index fundamental_frequency fundamental_magnitude fundamental_phase].
  rewrite Hmag. unfold bin_phase.
  rewrite dft_bin_scale, angle_scale by exact Hc. reflexivity.
Qed.

(** Scaling both captures by the same positive factor, as another probe
    attenuation or calibration factor would, scales the two RMS values and
    leaves the gain and the phase difference as they are. *)
Theorem analyze_scales (c f : R) (samplerate : Z) (v1 v2 : list R) (row : Row) :
  0 < c ->
  analyze f samplerate v1 v2 = inr row ->
  analyze f samplerate (map (Rmult c) v1) (map (Rmult c) v2) =
  inr (mkRow (Frequency row) (c * Ch1_RMS row) (c * Ch2_RMS row)
         (Gain row) (Phase_Difference row)).
Proof.
  intros Hc Hrow.
  apply analyze_inv in Hrow as (Hf & H1 & H2 & Hnz & Hg & f1 & f2 & Hf1 & Hf2 & Hp).
  apply rms_minus_dc_ok in H1 as [Hv1 E1]. apply rms_minus_dc_ok in H2 as [Hv2 E2].
  unfold analyze.
  rewrite !rms_minus_dc_nonempty
    by (intros E; apply map_eq_nil in E; contradiction).
  rewrite !raw_rms_scale by lra. cbn [bind ret].
  rewrite (fundamental_scale c v1 samplerate f1 Hc Hf1).
  rewrite (fundamental_scale c v2 samplerate f2 Hc Hf2).
  cbn [bind ret fundamental_phase].
  rewrite <- E1, <- E2, <- Hp, Hf.
  rewrite div_ok by nra. cbn [bind ret].
  replace (c * Ch1_RMS row / (c * Ch2_RMS row)) with (Gain row)
    by (rewrite Hg; field; split; [exact Hnz | lra]).
  reflexivity.
Qed.

Lemma analyze_scales_witness :
  analyze 100 20 (map (Rmult 5) (sinusoid 2 3 (PI / 4) 32))
    (map (Rmult 5) (sinusoid 1 3 0 32)) =
  inr (mkRow 100 (5 * (2 / sqrt 2)) (5 * (1 / sqrt 2)) (2 / 1)
         (phase_difference (PI / 4) 0)).
Proof.
  pose proof PI_RGT_0.
  apply (analyze_scales 5 100 20 (sinusoid 2 3 (PI / 4) 32) (sinusoid 1 3 0 32)
           (mkRow 100 (2 / sqrt 2) (1 / sqrt 2) (2 / 1) (phase_difference (PI / 4) 0)));
    [lra|].
  assert (HN : (0 < 32)%nat) by lia.
  assert (Hk : (1 <= 3 < 32 / 2)%nat)
    by (split; [lia | apply Nat.div_le_lower_bound; lia]).
  unfold analyze.
  rewrite !rms_minus_dc_nonempty by (apply sinusoid_nonempty; exact HN).
  rewrite !sinusoid_raw_rms by (try lra; exact Hk). cbn [bind ret].
  rewrite !sinusoid_fundamental by (try lra; exact Hk).
  cbn [bind ret fundamental_phase].
  assert (Hs : 0 < sqrt 2) by (apply sqrt_lt_R0; lra).
  assert (Hd : 0 < 1 / sqrt 2) by (apply Rdiv_lt_0_compat; lra).
  rewrite div_ok by lra. cbn [bind ret].
  replace (2 / sqrt 2 / (1 / sqrt 2)) with (2 / 1) by (field; lra).
  reflexivity.
Defined.

(** ** A sinusoid on a DC level (lines 159-177) *)

Lemma list_sum_R_offset c l :
  list_sum_R (map (Rplus c) l) = INR (length l) * c + list_sum_R l.
Proof.
  induction l as [|x l IH]; [unfold list_sum_R; simpl; ring|].
  change (length (x :: l)) with (S (length l)). rewrite S_INR.
  unfold list_sum_R in *. simpl. rewrite IH. ring.
Qed.

Lemma list_sum_R_squares_offset c l :
  list_sum_R (map (fun x => x * x) (map (Rplus c) l)) =
  INR (length l) * (c * c) + 2 * c * list_sum_R l +
  list_sum_R (map (fun x => x * x) l).
Proof.
  induction l as [|x l IH]; [unfold list_sum_R; simpl; ring|].
  change (length (x :: l)) with (S (length l)). rewrite S_INR.
  unfold list_sum_R in *. simpl. rewrite IH. ring.
Qed.

(** A sinusoid of amplitude [A] riding on the DC level [c] is reported with
    the RMS value [sqrt(A^2/2 + c^2) - c]; for a positive amplitude this is
    the RMS value [A / sqrt 2] of the sinusoid only when the DC level is
    zero. *)
Theorem rms_of_sinusoid_on_dc (A c : R) (k0 : nat) (phi : R) (N : nat) :
  (1 <= k0 < N / 2)%nat ->
  rms_minus_dc (map (Rplus c) (sinusoid A k0 phi N)) =
    inr (sqrt (A * A / 2 + c * c) - c) /\
  (0 < A -> (sqrt (A * A / 2 + c * c) - c = A / sqrt 2 <-> c = 0)).
Proof.
  intros [Hk0 Hhalf]. pose proof (half_lt_double _ _ Hhalf) as H2k.
  assert (HN : 0 < INR N) by (apply lt_0_INR; lia).
  split.
  - rewrite rms_minus_dc_nonempty.
    + f_equal. unfold raw_rms_minus_mean, mean.
      rewrite list_sum_R_squares_offset, list_sum_R_offset.
      rewrite sinusoid_sum_squares by lia. rewrite sinusoid_sum by lia.
      rewrite !length_map, sinusoid_length.
      f_equal; [f_equal|]; field; lra.
    + intros E. apply map_eq_nil in E. revert E. apply sinusoid_nonempty. lia.
  - intros HA.
    assert (Hs2 : 0 < sqrt 2) by (apply sqrt_lt_R0; lra).
    assert (Hss : sqrt 2 * sqrt 2 = 2) by (apply sqrt_sqrt; lra).
    set (a := A / sqrt 2).
    assert (Ha : 0 < a) by (apply Rdiv_lt_0_compat; lra).
    assert (Haa : A * A / 2 = a * a).
    { unfold a. rewrite <- Hss at 1. field. lra. }
    rewrite Haa.
    assert (Hrad : 0 <= a * a + c * c) by nra.
    pose proof (sqrt_sqrt _ Hrad) as Hsq.
    split.
    + intros E.
      assert (E2 : sqrt (a * a + c * c) = a + c) by lra.
      rewrite E2 in Hsq.
      assert (E3 : 2 * a * c = 0) by nra.
      apply Rmult_integral in E3 as [E3|E3]; [lra | exact E3].
    + intros ->. rewrite Rmult_0_l, Rplus_0_r, Rminus_0_r.
      apply sqrt_square. lra.
Qed.

Lemma rms_of_sinusoid_on_dc_witness :
  rms_minus_dc (map (Rplus 1) (sinusoid 3 2 (PI / 4) 16)) =
  inr (sqrt (3 * 3 / 2 + 1 * 1) - 1).
Proof.
  destruct (rms_of_sinusoid_on_dc 3 1 2 (PI / 4) 16) as [H _].
  - split; [lia | apply Nat.div_le_lower_bound; lia].
  - exact H.
Defined.
